(** * steem-js [src/api.js]: request dispatcher and polling streams

    A shallow embedding of the [Steem] client class: the constructor,
    the socket life cycle ([start], [stop]), the request dispatcher
    ([send], [waitForSlot], the per-request ['message'] listener) and the
    four polling streams ([streamBlockNumber] ... [streamOperations]).

    The class is an event-driven program on one JavaScript task queue.
    It is modelled as a deterministic machine: the fields of [this]
    together with the registered listeners and armed timers form the
    state, and every callback the source registers is a transition that
    runs to completion. *)

From stdpp Require Import gmap strings list sorting.

Local Open Scope Z_scope.
Local Open Scope string_scope.
Local Open Scope list_scope.

(** ** JavaScript values *)

(** JSON-like values. Objects keep their keys in insertion order, which
    [Object.keys] exposes. *)
#[warnings="-register-all"] Inductive jsval :=
| JUndef
| JNull
| JBool (b : bool)
| JNum (n : Z)
| JStr (s : string)
| JArr (items : list jsval)
| JObj (fields : list (string * jsval)).

Abbreviation jsobj := (list (string * jsval)).

(** The test JavaScript applies in [if (v)] and [v || w]. *)
Definition truthy (v : jsval) : bool :=
  match v with
  | JUndef | JNull => false
  | JBool b => b
  | JNum n => negb (Z.eqb n 0)
  | JStr s => negb (String.eqb s "")
  | JArr _ | JObj _ => true
  end.

(** [o[k]] *)
Fixpoint get (k : string) (o : jsobj) : jsval :=
  match o with
  | [] => JUndef
  | (k', v) :: o' => if String.eqb k k' then v else get k o'
  end.

(** [o[k] = v]: an existing key keeps its place, a new key goes last. *)
Fixpoint set (k : string) (v : jsval) (o : jsobj) : jsobj :=
  match o with
  | [] => [(k, v)]
  | (k', v') :: o' =>
      if String.eqb k k' then (k, v) :: o' else (k', v') :: set k v o'
  end.

(** [Object.keys(o)] *)
Definition keys (o : jsobj) : list string := o.*1.

(** [Object.assign(target, source)] *)
Definition assign (target source : jsobj) : jsobj :=
  foldl (λ t kv, set kv.1 kv.2 t) target source.

(** [cloneDeep(o)]: a structurally equal value in fresh objects. Values
    here are trees without sharing, so the copy is the value itself;
    that it is a different object from its argument shows in
    [constructor], which returns the caller's object and the stored one
    as two components. *)
Definition cloneDeep (o : jsobj) : jsobj := o.

(** ** The constructor *)

Definition DEFAULTS_apiIds : jsobj :=
  [ ("database_api", JNum 0);
    ("login_api", JNum 1);
    ("follow_api", JNum 3);
    ("network_broadcast_api", JNum 2) ].

Definition DEFAULTS : jsobj :=
  [ ("url", JStr "wss://steemit.com/wspa");
    ("apiIds", JObj DEFAULTS_apiIds);
    ("id", JNum 0) ].

(** ** Requests, messages and the client state *)

(** The [data] argument of [send]; [d_id = None] is an absent [id]
    property. Identities are integers. *)
Record data := Data {
  d_id : option Z;
  d_method : string;
  d_params : jsval;
  d_error : jsval;
}.

(** A parsed inbound message. *)
Record message := Message {
  m_id : Z;
  m_result : jsval;
  m_error : jsval;
}.

(** The outbound object [{id, method: 'call', params: [apiId, method,
    params]}] that [send] serialises. *)
Record payload := Payload {
  p_id : Z;
  p_apiId : jsval;
  p_method : string;
  p_params : jsval;
}.

(** The [callback] argument of [send]: a caller's continuation, named by
    a number, or the continuation [getApiIds] attaches to its request for
    the api [name]. *)
Inductive nodeback :=
| CbUser (k : nat)
| CbApiId (name : string).

Inductive error :=
| ErrCause (cause : jsval) (d : data)  (* [new Error(errorCause)], [message = data] *)
| ErrNoSocket.                          (* TypeError: [this.ws] is undefined *)

Inductive outcome :=
| Resolved (r : jsval)   (* [callback(null, result)] *)
| Rejected (e : error).  (* [callback(err)] *)

Inductive wsevent := WsOpen | WsClose | WsMessage.

#[global] Instance wsevent_eq_dec : EqDecision wsevent.
Proof. solve_decision. Defined.

(** A call of [send] between its return and its transmission: it waits
    for [Promise.join(this.start(), this.waitForSlot())]. [w_due] is the
    time of the next slot check, [w_slot] says that [waitForSlot] has
    resolved, [w_startP] is the start promise joined. *)
Record waiter := Waiter {
  w_id : Z;
  w_api : string;
  w_data : data;
  w_cb : nodeback;
  w_startP : nat;
  w_due : nat;
  w_slot : bool;
}.

(** The ['message'] listener of one request. [l_key] is the identity of
    the closure; [l_settled] says that the request's promise was already
    rejected when the listener was registered. *)
Record listener := Listener {
  l_key : nat;
  l_id : Z;
  l_data : data;
  l_payload : payload;
  l_cb : nodeback;
  l_settled : bool;
}.

Record steem := Steem {
  options : jsobj; (* [this.options] *)
  this_id : Z; (* [this.id], the identity counter *)
  inFlight : Z; (* [this.inFlight] *)
  apiIds : jsobj; (* [this.apiIds] *)
  isOpen : bool; (* [this.isOpen] *)
  releases : list (nat * wsevent); (* [this.releases]: each entry removes one socket listener *)
  startP : option nat; (* [this.startP]: the start promise, named by its socket *)
  ws : option nat; (* [this.ws] *)
  listeners : list listener; (* the ['message'] listeners registered on [this] *)
  fresh : nat; (* next closure identity *)
  now : nat; (* the clock, in the time units of [Promise.delay] *)
  waiters : list waiter; (* calls of [send] that have not transmitted yet, in call order *)
  nsockets : nat; (* number of sockets created so far *)
  wsListeners : list (nat * wsevent); (* listeners registered on sockets *)
  resolved : list nat; (* start promises that are resolved *)
  writes : list (nat * payload); (* [ws.send(payload)], oldest first *)
  closed : list nat; (* [ws.close()], oldest first *)
  calls : list (nodeback * outcome); (* callback invocations, oldest first *)
}.

Definition set_options (v : jsobj) (s : steem) : steem :=
  Steem v (this_id s) (inFlight s) (apiIds s) (isOpen s) (releases s)
    (startP s) (ws s) (listeners s) (fresh s) (now s) (waiters s)
    (nsockets s) (wsListeners s) (resolved s) (writes s) (closed s)
    (calls s).

Definition set_this_id (v : Z) (s : steem) : steem :=
  Steem (options s) v (inFlight s) (apiIds s) (isOpen s) (releases s)
    (startP s) (ws s) (listeners s) (fresh s) (now s) (waiters s)
    (nsockets s) (wsListeners s) (resolved s) (writes s) (closed s)
    (calls s).

Definition set_inFlight (v : Z) (s : steem) : steem :=
  Steem (options s) (this_id s) v (apiIds s) (isOpen s) (releases s)
    (startP s) (ws s) (listeners s) (fresh s) (now s) (waiters s)
    (nsockets s) (wsListeners s) (resolved s) (writes s) (closed s)
    (calls s).

Definition set_apiIds (v : jsobj) (s : steem) : steem :=
  Steem (options s) (this_id s) (inFlight s) v (isOpen s) (releases s)
    (startP s) (ws s) (listeners s) (fresh s) (now s) (waiters s)
    (nsockets s) (wsListeners s) (resolved s) (writes s) (closed s)
    (calls s).

Definition set_isOpen (v : bool) (s : steem) : steem :=
  Steem (options s) (this_id s) (inFlight s) (apiIds s) v (releases s)
    (startP s) (ws s) (listeners s) (fresh s) (now s) (waiters s)
    (nsockets s) (wsListeners s) (resolved s) (writes s) (closed s)
    (calls s).

Definition set_releases (v : list (nat * wsevent)) (s : steem) : steem :=
  Steem (options s) (this_id s) (inFlight s) (apiIds s) (isOpen s) v
    (startP s) (ws s) (listeners s) (fresh s) (now s) (waiters s)
    (nsockets s) (wsListeners s) (resolved s) (writes s) (closed s)
    (calls s).

Definition set_startP (v : option nat) (s : steem) : steem :=
  Steem (options s) (this_id s) (inFlight s) (apiIds s) (isOpen s)
    (releases s) v (ws s) (listeners s) (fresh s) (now s) (waiters s)
    (nsockets s) (wsListeners s) (resolved s) (writes s) (closed s)
    (calls s).

Definition set_ws (v : option nat) (s : steem) : steem :=
  Steem (options s) (this_id s) (inFlight s) (apiIds s) (isOpen s)
    (releases s) (startP s) v (listeners s) (fresh s) (now s) (waiters s)
    (nsockets s) (wsListeners s) (resolved s) (writes s) (closed s)
    (calls s).

Definition set_listeners (v : list listener) (s : steem) : steem :=
  Steem (options s) (this_id s) (inFlight s) (apiIds s) (isOpen s)
    (releases s) (startP s) (ws s) v (fresh s) (now s) (waiters s)
    (nsockets s) (wsListeners s) (resolved s) (writes s) (closed s)
    (calls s).

Definition set_fresh (v : nat) (s : steem) : steem :=
  Steem (options s) (this_id s) (inFlight s) (apiIds s) (isOpen s)
    (releases s) (startP s) (ws s) (listeners s) v (now s) (waiters s)
    (nsockets s) (wsListeners s) (resolved s) (writes s) (closed s)
    (calls s).

Definition set_now (v : nat) (s : steem) : steem :=
  Steem (options s) (this_id s) (inFlight s) (apiIds s) (isOpen s)
    (releases s) (startP s) (ws s) (listeners s) (fresh s) v (waiters s)
    (nsockets s) (wsListeners s) (resolved s) (writes s) (closed s)
    (calls s).

Definition set_waiters (v : list waiter) (s : steem) : steem :=
  Steem (options s) (this_id s) (inFlight s) (apiIds s) (isOpen s)
    (releases s) (startP s) (ws s) (listeners s) (fresh s) (now s) v
    (nsockets s) (wsListeners s) (resolved s) (writes s) (closed s)
    (calls s).

Definition set_nsockets (v : nat) (s : steem) : steem :=
  Steem (options s) (this_id s) (inFlight s) (apiIds s) (isOpen s)
    (releases s) (startP s) (ws s) (listeners s) (fresh s) (now s)
    (waiters s) v (wsListeners s) (resolved s) (writes s) (closed s)
    (calls s).

Definition set_wsListeners (v : list (nat * wsevent)) (s : steem) : steem :=
  Steem (options s) (this_id s) (inFlight s) (apiIds s) (isOpen s)
    (releases s) (startP s) (ws s) (listeners s) (fresh s) (now s)
    (waiters s) (nsockets s) v (resolved s) (writes s) (closed s) (calls s).

Definition set_resolved (v : list nat) (s : steem) : steem :=
  Steem (options s) (this_id s) (inFlight s) (apiIds s) (isOpen s)
    (releases s) (startP s) (ws s) (listeners s) (fresh s) (now s)
    (waiters s) (nsockets s) (wsListeners s) v (writes s) (closed s)
    (calls s).

Definition set_writes (v : list (nat * payload)) (s : steem) : steem :=
  Steem (options s) (this_id s) (inFlight s) (apiIds s) (isOpen s)
    (releases s) (startP s) (ws s) (listeners s) (fresh s) (now s)
    (waiters s) (nsockets s) (wsListeners s) (resolved s) v (closed s)
    (calls s).

Definition set_closed (v : list nat) (s : steem) : steem :=
  Steem (options s) (this_id s) (inFlight s) (apiIds s) (isOpen s)
    (releases s) (startP s) (ws s) (listeners s) (fresh s) (now s)
    (waiters s) (nsockets s) (wsListeners s) (resolved s) (writes s) v
    (calls s).

Definition set_calls (v : list (nodeback * outcome)) (s : steem) : steem :=
  Steem (options s) (this_id s) (inFlight s) (apiIds s) (isOpen s)
    (releases s) (startP s) (ws s) (listeners s) (fresh s) (now s)
    (waiters s) (nsockets s) (wsListeners s) (resolved s) (writes s)
    (closed s) v.

(** [new Steem(opts)]: returns the caller's object as the constructor
    leaves it, and the new client. [this.apiIds] is the [apiIds] object
    of the stored options, which the assignment has made the default
    table. [currentP] is left out: [send] assigns it and reads it into a
    local that is never used. *)
Definition constructor (opts : jsobj) : jsobj * steem :=
  let opts := assign opts DEFAULTS in
  let this_options := cloneDeep opts in
  (opts,
   {| options := this_options;
      this_id := 0;
      inFlight := 0;
      apiIds := match get "apiIds" this_options with JObj o => o | _ => [] end;
      isOpen := false;
      releases := [];
      startP := None;
      ws := None;
      listeners := [];
      fresh := 0;
      now := 0;
      waiters := [];
      nsockets := 0;
      wsListeners := [];
      resolved := [];
      writes := [];
      closed := [];
      calls := [] |}).

(** The exported singleton, [new Steem()]. *)
Definition steem0 : steem := (constructor []).2.

(** ** The dispatcher *)

Definition capacity : Z := 10.
Definition slot_delay : nat := 100.

(** [listenTo(this.ws, e, ...)] and the release closure it returns. *)
Definition listenTo (g : nat) (e : wsevent) (s : steem) : steem :=
  set_wsListeners (wsListeners s ++ [(g, e)]) s.

Definition release_ws (r : nat * wsevent) (s : steem) : steem :=
  set_wsListeners (filter (λ x, x ≠ r) (wsListeners s)) s.

(** The release closure of a ['message'] listener on [this]. *)
Definition release (l : listener) (s : steem) : steem :=
  set_listeners (filter (λ l', l_key l' ≠ l_key l) (listeners s)) s.

(** [callback(null, result)] or [callback(err)]. A caller's callback is
    recorded; the one of [getApiIds] also stores a truthy result. *)
Definition invoke (cb : nodeback) (o : outcome) (s : steem) : steem :=
  let s := set_calls (calls s ++ [(cb, o)]) s in
  match cb, o with
  | CbApiId name, Resolved r =>
      if truthy r then set_apiIds (set name r (apiIds s)) s else s
  | _, _ => s
  end.

(** The body of the listener that [send] registers (lines 148-175). *)
Definition on_message (l : listener) (m : message) (s : steem) : steem :=
  if bool_decide (m_id m < l_id l) then s
  else
    let s := set_inFlight (inFlight s - 1) s in
    let s := release l s in
    if bool_decide (m_id m ≠ l_id l) then s
    else if l_settled l then s
    else
      let errorCause := d_error (l_data l) in
      if truthy errorCause
      then invoke (l_cb l) (Rejected (ErrCause errorCause (l_data l))) s
      else invoke (l_cb l) (Resolved (m_result m)) s.

(** [this.emit('message', m)]: every listener registered when the
    message is emitted runs, in registration order. *)
Definition emit (m : message) (s : steem) : steem :=
  foldl (λ s l, on_message l m s) s (listeners s).

(** The promise executor of [send] (lines 137-179): build the payload,
    register the listener, write. Without a socket the write throws
    after the listener is registered, and the promise is rejected. *)
Definition transmit (w : waiter) (s : steem) : steem :=
  let p := Payload (w_id w) (get (w_api w) (apiIds s))
             (d_method (w_data w)) (d_params (w_data w)) in
  let l := Listener (fresh s) (w_id w) (w_data w) p (w_cb w) in
  let s := set_fresh (S (fresh s)) s in
  match ws s with
  | Some g =>
      let s := set_listeners (listeners s ++ [l false]) s in
      set_writes (writes s ++ [(g, p)]) s
  | None =>
      let s := set_listeners (listeners s ++ [l true]) s in
      invoke (w_cb w) (Rejected ErrNoSocket) s
  end.

Definition keep (w : waiter) (s : steem) : steem :=
  set_waiters (waiters s ++ [w]) s.

Definition set_w_due (t : nat) (w : waiter) : waiter :=
  Waiter (w_id w) (w_api w) (w_data w) (w_cb w) (w_startP w) t (w_slot w).

Definition set_w_slot (b : bool) (w : waiter) : waiter :=
  Waiter (w_id w) (w_api w) (w_data w) (w_cb w) (w_startP w) (w_due w) b.

(** [waitForSlot]: the check that runs when the delay of a waiting call
    has passed. It resolves while [inFlight < 10] and otherwise waits
    another [slot_delay]. A resolved wait transmits at once if the start
    promise is resolved too. *)
Definition waitForSlot (w : waiter) (s : steem) : steem :=
  if w_slot w then keep w s
  else if bool_decide (w_due w ≤ now s)%nat then
    if bool_decide (inFlight s < capacity) then
      if bool_decide (w_startP w ∈ resolved s) then transmit w s
      else keep (set_w_slot true w) s
    else keep (set_w_due (now s + slot_delay) w) s
  else keep w s.

(** One time unit passes; the delays that end now fire in the order in
    which they were armed. *)
Definition tick (s : steem) : steem :=
  let s := set_now (S (now s)) s in
  foldl (λ s w, waitForSlot w s) (set_waiters [] s) (waiters s).

(** The socket listeners of [start] (lines 61-78). *)
Definition ws_open (g : nat) (s : steem) : steem :=
  if bool_decide ((g, WsOpen) ∈ wsListeners s) then
    let s := set_isOpen true s in
    let s := release_ws (g, WsOpen) s in
    let s := set_resolved (g :: resolved s) s in
    foldl (λ s w, if bool_decide (w_startP w = g) && w_slot w
                  then transmit w s else keep w s)
          (set_waiters [] s) (waiters s)
  else s.

Definition ws_close (g : nat) (s : steem) : steem :=
  if bool_decide ((g, WsClose) ∈ wsListeners s) then
    let s := release_ws (g, WsClose) s in
    set_isOpen false s
  else s.

Definition ws_message (g : nat) (m : message) (s : steem) : steem :=
  if bool_decide ((g, WsMessage) ∈ wsListeners s) then
    let s := release_ws (g, WsMessage) s in
    emit m s
  else s.

(** [const id = data.id || this.id++] *)
Definition nextId (d : data) (s : steem) : Z * steem :=
  match d_id d with
  | Some v =>
      if truthy (JNum v) then (v, s)
      else (this_id s, set_this_id (this_id s + 1) s)
  | None => (this_id s, set_this_id (this_id s + 1) s)
  end.

(** [send], over the [start] it calls. *)
Definition send_via (start : steem → nat * steem)
    (api : string) (d : data) (cb : nodeback) (s : steem) : steem :=
  let '(i, s) := nextId d s in
  let '(g, s) := start s in
  let s := keep (Waiter i api d cb g (now s + slot_delay)%nat false) s in
  set_inFlight (inFlight s + 1) s.

(** Modelled from the spec: the method table [./methods] is not among
    the sources, so neither is the generated [getApiByName]. The spec
    has the api ids resolved at startup by one call of a fixed bootstrap
    method per configured api name; a generated method calls [send] with
    its method name and its arguments as [params], without [id]. *)
Definition getApiByName (name : string) : string * data :=
  ("login_api", Data None "get_api_by_name" (JArr [JStr name]) JUndef).

(** [getApiIds], called by [start] once [this.startP] is set to [g]: the
    mapper runs for every key of [this.apiIds] in turn, and the [start]
    of the calls of [send] it makes returns that promise. *)
Definition getApiIds (g : nat) (s : steem) : steem :=
  foldl (λ s name,
           let '(api, d) := getApiByName name in
           send_via (λ s, (g, s)) api d (CbApiId name) s)
        s (keys (apiIds s)).

(** [start] returns the start promise, named by its socket. Without one
    it creates the socket, registers the three socket listeners, stores
    the promise and calls [getApiIds]. The guard of the executor
    compares [startP], not yet assigned, with [this.startP], which is
    absent: both are undefined, and the executor goes on. *)
Definition start (s : steem) : nat * steem :=
  match startP s with
  | Some g => (g, s)
  | None =>
      let g := nsockets s in
      let s := set_nsockets (S g) s in
      let s := set_ws (Some g) s in
      let s := listenTo g WsOpen s in
      let s := listenTo g WsClose s in
      let s := listenTo g WsMessage s in
      let s := set_releases
                 (releases s ++ [(g, WsOpen); (g, WsClose); (g, WsMessage)]) s in
      let s := set_startP (Some g) s in
      (g, getApiIds g s)
  end.

Definition send (api : string) (d : data) (cb : nodeback) (s : steem) : steem :=
  send_via start api d cb s.

(** [stop]: close the socket if there is one, forget the start promise
    and the socket, run and drop the release closures. *)
Definition stop (s : steem) : steem :=
  let s := match ws s with
           | Some g => set_closed (closed s ++ [g]) s
           | None => s
           end in
  let s := set_startP None s in
  let s := set_ws None s in
  let s := foldl (λ s r, release_ws r s) s (releases s) in
  set_releases [] s.

Definition setWebSocket (url : string) (s : steem) : steem :=
  stop (set_options (set "url" (JStr url) (options s)) s).

(** ** Executions *)

(** What can happen to a client: a call of one of its methods ([emit] is
    the one it inherits from [EventEmitter]), the passing of one time
    unit, or an event of a socket [g]. *)
Inductive event :=
| ESend (api : string) (d : data) (k : nat)
| EStop
| ESetWebSocket (url : string)
| ETick
| EWsOpen (g : nat)
| EWsClose (g : nat)
| EWsMessage (g : nat) (m : message)
| EEmit (m : message).

Definition step (s : steem) (e : event) : steem :=
  match e with
  | ESend api d k => send api d (CbUser k) s
  | EStop => stop s
  | ESetWebSocket url => setWebSocket url s
  | ETick => tick s
  | EWsOpen g => ws_open g s
  | EWsClose g => ws_close g s
  | EWsMessage g m => ws_message g m s
  | EEmit m => emit m s
  end.

Definition run (es : list event) (s : steem) : steem := foldl step s es.

(** [n] time units pass. *)
Definition wait (n : nat) : list event := replicate n ETick.

(** ** The polling streams *)

Module Stream.

(** [a === b] on values that arrive in different messages: primitives
    are compared by value, and an object is never the object of an
    earlier message. *)
Definition strict_eq (a b : jsval) : bool :=
  match a, b with
  | JUndef, JUndef | JNull, JNull => true
  | JBool x, JBool y => bool_decide (x = y)
  | JNum x, JNum y => bool_decide (x = y)
  | JStr x, JStr y => bool_decide (x = y)
  | _, _ => false
  end.

Record transaction := Transaction { operations : list jsval }.
Record block := Block { transactions : list transaction }.

(** One call of a subscriber's callback: [callback(err)] or
    [callback(null, x)] with [x] a head identity, a block, a transaction
    or an operation. *)
Inductive item :=
| Err (e : jsval)
| Num (blockId : jsval)
| Blk (b : block)
| Tx (t : transaction)
| Op (o : jsval).

(** The method that created the subscription. *)
Inductive layer :=
| BlockNumberL     (* [streamBlockNumber] *)
| BlockL           (* [streamBlock] *)
| TransactionsL    (* [streamTransactions] *)
| OperationsL.     (* [streamOperations] *)

(** What the watcher of a subscription waits for. *)
Inductive phase :=
| Querying   (* the promise of [getDynamicGlobalPropertiesAsync()] *)
| Sleeping   (* [Promise.delay(ts)] *)
| Idle.      (* nothing: [update] returned at once, or the query failed *)

(** The closures of one subscription. [current] and [running] are the
    variables of its [streamBlockNumber] call, [blk_current] and
    [blk_last] those of its [streamBlock] call (unused at the lowest
    layer); [fetching] are its [getBlock] calls without a response yet,
    [queries] counts its chain head queries, [out] records the calls of
    the subscriber's callback. *)
Record stream := Stream {
  layer_of : layer;
  ts : nat;
  current : jsval;
  running : bool;
  phase_of : phase;
  blk_current : jsval;
  blk_last : jsval;
  fetching : list jsval;
  queries : nat;
  out : list item;
}.

Definition set_current (v : jsval) (st : stream) : stream :=
  Stream (layer_of st) (ts st) v (running st) (phase_of st)
    (blk_current st) (blk_last st) (fetching st) (queries st) (out st).

Definition set_running (v : bool) (st : stream) : stream :=
  Stream (layer_of st) (ts st) (current st) v (phase_of st)
    (blk_current st) (blk_last st) (fetching st) (queries st) (out st).

Definition set_phase (v : phase) (st : stream) : stream :=
  Stream (layer_of st) (ts st) (current st) (running st) v
    (blk_current st) (blk_last st) (fetching st) (queries st) (out st).

Definition set_blk_current (v : jsval) (st : stream) : stream :=
  Stream (layer_of st) (ts st) (current st) (running st) (phase_of st)
    v (blk_last st) (fetching st) (queries st) (out st).

Definition set_blk_last (v : jsval) (st : stream) : stream :=
  Stream (layer_of st) (ts st) (current st) (running st) (phase_of st)
    (blk_current st) v (fetching st) (queries st) (out st).

Definition set_fetching (v : list jsval) (st : stream) : stream :=
  Stream (layer_of st) (ts st) (current st) (running st) (phase_of st)
    (blk_current st) (blk_last st) v (queries st) (out st).

Definition set_queries (v : nat) (st : stream) : stream :=
  Stream (layer_of st) (ts st) (current st) (running st) (phase_of st)
    (blk_current st) (blk_last st) (fetching st) v (out st).

Definition set_out (v : list item) (st : stream) : stream :=
  Stream (layer_of st) (ts st) (current st) (running st) (phase_of st)
    (blk_current st) (blk_last st) (fetching st) (queries st) v.

(** The subscriber's callback. *)
Definition callback (i : item) (st : stream) : stream :=
  set_out (out st ++ [i]) st.

(** The closure [streamBlockNumber] returns. Every higher layer names
    it [release], calls it on an error and returns it in turn, so it is
    the handle of every layer. *)
Definition cancel (st : stream) : stream := set_running false st.

(** The callback [streamOperations] passes to [streamTransactions]. *)
Definition operations_cb (ev : jsval + transaction) (st : stream) : stream :=
  match ev with
  | inl err => callback (Err err) (cancel st)
  | inr transaction =>
      foldl (λ st operation, callback (Op operation) st) st
            (operations transaction)
  end.

(** The [callback] of [streamTransactions]. *)
Definition transaction_cb (ev : jsval + transaction) (st : stream) : stream :=
  match layer_of st with
  | OperationsL => operations_cb ev st
  | _ => callback (match ev with inl err => Err err | inr t => Tx t end) st
  end.

(** The callback [streamTransactions] passes to [streamBlock]. *)
Definition transactions_cb (ev : jsval + block) (st : stream) : stream :=
  match ev with
  | inl err => transaction_cb (inl err) (cancel st)
  | inr result =>
      foldl (λ st transaction, transaction_cb (inr transaction) st) st
            (transactions result)
  end.

(** The [callback] of [streamBlock], also handed to [getBlock]; a block
    number stream has none. *)
Definition block_cb (ev : jsval + block) (st : stream) : stream :=
  match layer_of st with
  | BlockNumberL => st
  | BlockL => callback (match ev with inl err => Err err | inr b => Blk b end) st
  | _ => transactions_cb ev st
  end.

(** [this.getBlock(current, callback)] *)
Definition getBlock (id : jsval) (st : stream) : stream :=
  set_fetching (fetching st ++ [id]) st.

(** The callback [streamBlock] passes to [streamBlockNumber]. *)
Definition blocknumber_cb (ev : jsval + jsval) (st : stream) : stream :=
  match ev with
  | inl err => block_cb (inl err) (cancel st)
  | inr id =>
      let st := set_blk_current id st in
      if negb (strict_eq (blk_current st) (blk_last st))
      then getBlock (blk_current st) (set_blk_last (blk_current st) st)
      else st
  end.

(** The [callback] of [streamBlockNumber]. *)
Definition number_cb (ev : jsval + jsval) (st : stream) : stream :=
  match layer_of st with
  | BlockNumberL =>
      callback (match ev with inl err => Err err | inr id => Num id end) st
  | _ => blocknumber_cb ev st
  end.

(** [update] (lines 194-198): leave if cancelled, else query the chain
    head. *)
Definition update (st : stream) : stream :=
  if negb (running st) then set_phase Idle st
  else set_queries (S (queries st)) (set_phase Querying st).

(** The query of the watcher resolves with a result whose
    [head_block_number] is [blockId] (lines 199-208). *)
Definition on_head (blockId : jsval) (st : stream) : stream :=
  match phase_of st with
  | Querying =>
      let st :=
        if negb (strict_eq blockId (current st))
        then number_cb (inr blockId) (set_current blockId st)
        else st in
      set_phase Sleeping st
  | _ => st
  end.

(** The query fails (lines 209-211). *)
Definition on_head_error (err : jsval) (st : stream) : stream :=
  match phase_of st with
  | Querying => number_cb (inl err) (set_phase Idle st)
  | _ => st
  end.

(** [Promise.delay(ts)] has passed (lines 206-208). *)
Definition on_elapsed (st : stream) : stream :=
  match phase_of st with
  | Sleeping => update st
  | _ => st
  end.

(** The oldest [getBlock] call gets its response. *)
Definition on_block (ev : jsval + block) (st : stream) : stream :=
  match fetching st with
  | _ :: rest => block_cb ev (set_fetching rest st)
  | [] => st
  end.

(** [streamBlockNumber(callback, ts)] and, for the higher layers, the
    chain of calls down to it (with the default [ts]): the closures are
    created and [update] runs once. *)
Definition subscribe (l : layer) (interval : nat) : stream :=
  update (Stream l interval (JStr "") true Idle (JStr "") (JStr "") [] 0 []).

Definition streamBlockNumber (interval : nat) : stream :=
  subscribe BlockNumberL interval.
Definition streamBlock : stream := subscribe BlockL 200.
Definition streamTransactions : stream := subscribe TransactionsL 200.
Definition streamOperations : stream := subscribe OperationsL 200.

(** The subscriptions of a client, by handle. *)
Record store := Store {
  streams : gmap nat stream;
  next : nat;
}.

Definition open (l : layer) (interval : nat) (σ : store) : nat * store :=
  (next σ, Store (<[next σ := subscribe l interval]> (streams σ)) (S (next σ))).

Inductive input :=
| Open (l : layer) (interval : nat)      (* a call of a stream method *)
| Release (h : nat)                      (* a call of the handle [h] *)
| Head (h : nat) (blockId : jsval)
| HeadError (h : nat) (err : jsval)
| Elapsed (h : nat)
| BlockResult (h : nat) (ev : jsval + block).

Definition feed (σ : store) (e : input) : store :=
  match e with
  | Open l interval => (open l interval σ).2
  | Release h => Store (alter cancel h (streams σ)) (next σ)
  | Head h blockId => Store (alter (on_head blockId) h (streams σ)) (next σ)
  | HeadError h err => Store (alter (on_head_error err) h (streams σ)) (next σ)
  | Elapsed h => Store (alter on_elapsed h (streams σ)) (next σ)
  | BlockResult h ev => Store (alter (on_block ev) h (streams σ)) (next σ)
  end.

Definition feeds (es : list input) (σ : store) : store := foldl feed σ es.

(** One polling round of a watcher: the query resolves, the delay
    passes. *)
Definition poll (blockId : jsval) (st : stream) : stream :=
  on_elapsed (on_head blockId st).

Definition polls (blockIds : list jsval) (st : stream) : stream :=
  foldl (λ st blockId, poll blockId st) st blockIds.

(** A client without subscriptions. *)
Definition empty : store := Store ∅ 0.

(** The identities of a sequence that differ from the one before them,
    [prev] being the one before the first. *)
Fixpoint changes (prev : jsval) (blockIds : list jsval) : list jsval :=
  match blockIds with
  | [] => []
  | blockId :: rest =>
      if strict_eq blockId prev then changes prev rest
      else blockId :: changes blockId rest
  end.


(** Handles are given out in order. *)
Definition wf_store (σ : store) : Prop :=
  ∀ k, is_Some (streams σ !! k) → (k < next σ)%nat.

(** What the callbacks of the layers leave alone. *)
Definition settles (st st' : stream) : Prop :=
  layer_of st' = layer_of st ∧ phase_of st' = phase_of st
  ∧ queries st' = queries st ∧ (running st = false → running st' = false).


End Stream.

(** ** Scenarios *)

(** A call of a generated method: no [id], no [error]. *)
Definition request (method : string) : data :=
  Data None method (JArr []) JUndef.

(** A successful response. *)
Definition result (i : Z) (r : jsval) : message := Message i r JUndef.

(** A client after its first request: the socket has opened, the
    request and the four of [getApiIds] were written at time 100, and
    the message for identity 4 has unregistered their listeners. The
    identity counter is at 5 and nothing is in flight. *)
Definition started : steem :=
  run ([ESend "database_api" (request "get_config") 0; EWsOpen 0]
       ++ wait 100 ++ [EEmit (result 4 JNull)])
      steem0.

(** Two requests are sent together on the started client, with callbacks
    5 and 6; they take the identities 5 and 6 and are written at time
    200. *)
Definition pending56 : steem :=
  run ([ESend "database_api" (request "get_block") 5;
        ESend "database_api" (request "get_block") 6] ++ wait 100)
      started.


(** The first request of a fresh client is written at time 100, and the
    first message of the socket answers it with an error. *)
Definition error_reply : list event :=
  [ESend "database_api" (request "get_block") 0; EWsOpen 0]
  ++ wait 100
  ++ [EWsMessage 0 (Message 0 JUndef (JStr "missing block"))].

(** Ten requests on a fresh client, and the time up to their first slot
    check. *)
Definition saturated : list event :=
  map (λ k, ESend "database_api" (request "get_block") k) (seq 0 10)
  ++ [EWsOpen 0] ++ wait 99.

Local Close Scope string_scope.

(** ** Vocabulary of the properties *)

Section Vocabulary.

Variable m : message.

(** The listeners a message leaves registered are those it is stale
    for; the others answer it. *)
Definition stale (l : listener) : Prop := m_id m < l_id l.

#[global] Instance stale_dec l : Decision (stale l).
Proof. unfold stale. apply _. Defined.

(** What a matched listener tells its request's caller. *)
Definition reply (l : listener) : outcome :=
  if truthy (d_error (l_data l))
  then Rejected (ErrCause (d_error (l_data l)) (l_data l))
  else Resolved (m_result m).

(** The callback invocations a list of listeners makes on [m]. *)
Definition answers (ls : list listener) : list (nodeback * outcome) :=
  l ← filter (λ l, l_id l = m_id m ∧ l_settled l = false) ls;
  [(l_cb l, reply l)].

(** The listeners [ls] run on [m] in turn. *)
Definition emit_on (ls : list listener) (s : steem) : steem :=
  foldl (λ s l, on_message l m s) s ls.

(** The closures that unregister themselves on [m], by identity. *)
Definition leaving (ls : list listener) : list nat :=
  l_key <$> filter (λ l, ¬ stale l) ls.

End Vocabulary.

(** The messages [ms] are emitted in turn. *)
Definition emits (ms : list message) (s : steem) : steem :=
  foldl (λ s m, emit m s) s ms.

(** The closures registered on a client are distinct and older than the
    next one. *)
Definition wf (s : steem) : Prop :=
  NoDup (l_key <$> listeners s)
  ∧ Forall (λ l, l_key l < fresh s)%nat (listeners s).

(** The waiting calls whose [waitForSlot] has resolved. *)
Definition slotted (ws : list waiter) : nat :=
  length (filter (λ w, w_slot w = true) ws).

(** Every call that waits or listens holds one unit of [inFlight], and
    fewer than [capacity] calls are past their slot check. [rest] are
    the waiting calls that a running handler has taken off
    [waiters] and not looked at yet. *)
Definition InvR (rest : list waiter) (s : steem) : Prop :=
  wf s
  ∧ Z.of_nat (length (listeners s) + length (waiters s) + length rest)
    ≤ inFlight s
  ∧ Z.of_nat (length (listeners s) + slotted (waiters s) + slotted rest)
    < capacity.

Definition Inv (s : steem) : Prop := InvR [] s.

(** ** The generated methods *)

(** One entry of the method table [./methods]; an absent [params] is the
    empty list. The table itself is not among the sources: the
    generator below is stated for any entry. *)
Record method_descr := Method {
  md_api : string;
  md_method : string;
  md_params : list string;
}.

(** [args[i]] *)
Definition arg (args : list jsval) (i : nat) : jsval :=
  default JUndef (args !! i).

(** [methodParams.reduce((memo, param, i) => { memo[param] = args[i];
    return memo; }, {})], from index [i] on. *)
Fixpoint collect (i : nat) (params : list string) (args : list jsval)
    (memo : jsobj) : jsobj :=
  match params with
  | [] => memo
  | param :: rest => collect (S i) rest args (set param (arg args i) memo)
  end.

(** [Steem$$specializedSendWith(options, callback)] *)
Definition specializedSendWith (method : method_descr)
    (opts : jsobj) (cb : nodeback) (s : steem) : steem :=
  let params := (λ param, get param opts) <$> md_params method in
  send (md_api method) (Data None (md_method method) (JArr params) JUndef)
       cb s.

(** [Steem$specializedSend(...args)], called with the callback in the
    position after the parameters: [args] are the arguments before
    it. *)
Definition specializedSend (method : method_descr)
    (args : list jsval) (cb : nodeback) (s : steem) : steem :=
  let opts := collect 0 (md_params method) args [] in
  specializedSendWith method opts cb s.

(** ** Further vocabulary *)

(** The call took its identity from the counter. *)
Definition auto (d : data) : Prop :=
  match d_id d with Some v => v = 0 | None => True end.


(** The waiting calls whose slot check is due at time [t] and whose
    start promise is resolved. *)
Definition ready (s : steem) (t : nat) (w : waiter) : Prop :=
  w_slot w = false ∧ (w_due w ≤ t)%nat ∧ w_startP w ∈ resolved s.

#[global] Instance ready_dec s t w : Decision (ready s t w).
Proof. unfold ready. apply _. Defined.

(** The waiting calls that wait for the start promise [g] only. *)
Definition joined (g : nat) (w : waiter) : Prop :=
  w_startP w = g ∧ w_slot w = true.

#[global] Instance joined_dec g w : Decision (joined g w).
Proof. unfold joined. apply _. Defined.

(** No listener, no slot taken, and the budget used up. *)
Definition starved (s : steem) : Prop :=
  listeners s = [] ∧ slotted (waiters s) = 0%nat ∧ capacity ≤ inFlight s.


(** The pending calls with an identity from the counter have one below
    it. *)
Definition counted (s : steem) : Prop :=
  Forall (λ w, auto (w_data w) → w_id w < this_id s) (waiters s)
  ∧ Forall (λ l, auto (l_data l) → l_id l < this_id s) (listeners s).

(** * Properties *)

Create HintDb st.

#[local] Hint Unfold set_options set_this_id set_inFlight set_apiIds set_isOpen
  set_releases set_startP set_ws set_listeners set_fresh set_now set_waiters
  set_nsockets set_wsListeners set_resolved set_writes set_closed set_calls
  : st.

Ltac st_simpl := autounfold with st in *; simpl in *.

(** ** Lists *)

Section Lists.
Context {A : Type}.
Implicit Types (P Q : A → Prop) (l : list A).

Lemma filter_iff_on P Q `{!∀ x, Decision (P x), !∀ x, Decision (Q x)} l :
  (∀ x, x ∈ l → P x ↔ Q x) → filter P l = filter Q l.
Proof.
  induction l as [|a l IH]; intros Hl; [done|].
  rewrite !filter_cons, IH.
  - apply decide_ext, Hl. by left.
  - intros x Hx. apply Hl. by right.
Qed.

Lemma filter_all P `{!∀ x, Decision (P x)} l :
  (∀ x, x ∈ l → P x) → filter P l = l.
Proof.
  induction l as [|a l IH]; intros Hl; [done|].
  rewrite filter_cons_True by (apply Hl; by left).
  f_equal. apply IH. intros x Hx. apply Hl. by right.
Qed.

Lemma length_filter_split P `{!∀ x, Decision (P x)} l :
  length l = (length (filter P l) + length (filter (λ x, ¬ P x) l))%nat.
Proof.
  induction l as [|a l IH]; [done|].
  rewrite !filter_cons. destruct (decide (P a)).
  - rewrite decide_False by tauto. simpl. lia.
  - rewrite decide_True by done. simpl. lia.
Qed.

Lemma fmap_inj_on {B} (f : A → B) l x y :
  NoDup (f <$> l) → x ∈ l → y ∈ l → f x = f y → x = y.
Proof.
  induction l as [|a l IH]; intros Hnd Hx Hy Hf.
  { by apply elem_of_nil in Hx. }
  rewrite fmap_cons in Hnd. apply NoDup_cons in Hnd as [Ha Hnd].
  apply elem_of_cons in Hx as [->|Hx]; apply elem_of_cons in Hy as [->|Hy];
    auto.
  - exfalso. apply Ha. rewrite Hf. by apply list_elem_of_fmap_2.
  - exfalso. apply Ha. rewrite <- Hf. by apply list_elem_of_fmap_2.
Qed.

End Lists.

(** ** The ['message'] listener *)

Section Listener.

Variable m : message.





Lemma invoke_listeners cb o s : listeners (invoke cb o s) = listeners s.
Proof. unfold invoke. st_simpl. by repeat case_match. Qed.

Lemma invoke_inFlight cb o s : inFlight (invoke cb o s) = inFlight s.
Proof. unfold invoke. st_simpl. by repeat case_match. Qed.

Lemma invoke_waiters cb o s : waiters (invoke cb o s) = waiters s.
Proof. unfold invoke. st_simpl. by repeat case_match. Qed.

Lemma invoke_calls cb o s : calls (invoke cb o s) = calls s ++ [(cb, o)].
Proof. unfold invoke. st_simpl. by repeat case_match. Qed.

Lemma on_message_stale l s : stale m l → on_message l m s = s.
Proof. intros H. unfold on_message. by rewrite bool_decide_eq_true_2. Qed.

Lemma on_message_listeners l s :
  ¬ stale m l →
  listeners (on_message l m s)
  = filter (λ l', l_key l' ≠ l_key l) (listeners s).
Proof.
  intros H. unfold on_message. rewrite bool_decide_eq_false_2 by done.
  repeat case_match; rewrite ?invoke_listeners; done.
Qed.

Lemma on_message_inFlight l s :
  ¬ stale m l → inFlight (on_message l m s) = inFlight s - 1.
Proof.
  intros H. unfold on_message. rewrite bool_decide_eq_false_2 by done.
  repeat case_match; rewrite ?invoke_inFlight; done.
Qed.

Lemma on_message_waiters l s : waiters (on_message l m s) = waiters s.
Proof.
  unfold on_message. repeat case_match; rewrite ?invoke_waiters; done.
Qed.

Lemma on_message_calls l s :
  calls (on_message l m s) = calls s ++ answers m [l].
Proof.
  unfold on_message, answers, reply, stale.
  rewrite filter_cons, filter_nil.
  repeat case_bool_decide; repeat case_decide; simpl;
    repeat case_match; rewrite ?invoke_calls, ?app_nil_r;
    st_simpl; try done; try lia; naive_solver.
Qed.

Lemma emit_on_waiters ls s : waiters (emit_on m ls s) = waiters s.
Proof.
  revert s. induction ls as [|l ls IH]; intros s; [done|].
  simpl. by rewrite IH, on_message_waiters.
Qed.

Lemma answers_app ls1 ls2 : answers m (ls1 ++ ls2) = answers m ls1 ++ answers m ls2.
Proof. unfold answers. by rewrite filter_app, bind_app. Qed.

Lemma emit_on_calls ls s : calls (emit_on m ls s) = calls s ++ answers m ls.
Proof.
  revert s. induction ls as [|l ls IH]; intros s; simpl.
  - by rewrite app_nil_r.
  - rewrite IH, on_message_calls, <- app_assoc.
    by rewrite <- answers_app.
Qed.

Lemma emit_on_inFlight ls s :
  inFlight (emit_on m ls s)
  = inFlight s - Z.of_nat (length (filter (λ l, ¬ stale m l) ls)).
Proof.
  revert s. induction ls as [|l ls IH]; intros s; simpl; [lia|].
  rewrite IH, filter_cons. destruct (decide (stale m l)) as [Hl|Hl].
  - rewrite on_message_stale by done. by rewrite decide_False by tauto.
  - rewrite on_message_inFlight by done.
    rewrite decide_True by done. simpl. lia.
Qed.


Lemma emit_on_listeners ls s :
  listeners (emit_on m ls s)
  = filter (λ l', l_key l' ∉ leaving m ls) (listeners s).
Proof.
  revert s. induction ls as [|l ls IH]; intros s; simpl.
  - symmetry. apply filter_all. intros x _. apply not_elem_of_nil.
  - rewrite IH. unfold leaving. rewrite filter_cons.
    destruct (decide (stale m l)) as [Hl|Hl].
    + rewrite on_message_stale by done. by rewrite decide_False by tauto.
    + rewrite on_message_listeners by done. rewrite decide_True by done.
      rewrite list_filter_filter. apply list_filter_iff. intros x.
      rewrite fmap_cons, not_elem_of_cons. tauto.
Qed.

End Listener.


Lemma invoke_fresh cb o s : fresh (invoke cb o s) = fresh s.
Proof. unfold invoke. st_simpl. by repeat case_match. Qed.

Lemma invoke_writes cb o s : writes (invoke cb o s) = writes s.
Proof. unfold invoke. st_simpl. by repeat case_match. Qed.

Lemma on_message_fresh m l s : fresh (on_message l m s) = fresh s.
Proof. unfold on_message. repeat case_match; rewrite ?invoke_fresh; done. Qed.

Lemma on_message_writes m l s : writes (on_message l m s) = writes s.
Proof. unfold on_message. repeat case_match; rewrite ?invoke_writes; done. Qed.

Lemma emit_on_fresh m ls s : fresh (emit_on m ls s) = fresh s.
Proof.
  revert s. induction ls as [|l ls IH]; intros s; [done|].
  simpl. by rewrite IH, on_message_fresh.
Qed.

Lemma emit_on_writes m ls s : writes (emit_on m ls s) = writes s.
Proof.
  revert s. induction ls as [|l ls IH]; intros s; [done|].
  simpl. by rewrite IH, on_message_writes.
Qed.

Lemma emit_on_all_stale m ls s :
  Forall (stale m) ls → emit_on m ls s = s.
Proof.
  induction 1 as [|l ls Hl _ IH]; [done|].
  simpl. by rewrite on_message_stale.
Qed.

Lemma emit_unfold m s : emit m s = emit_on m (listeners s) s.
Proof. done. Qed.

Lemma emit_listeners m s :
  NoDup (l_key <$> listeners s) →
  listeners (emit m s) = filter (stale m) (listeners s).
Proof.
  intros Hnd. rewrite emit_unfold, emit_on_listeners.
  apply filter_iff_on. intros x Hx. unfold leaving. split.
  - intros Hout. destruct (decide (stale m x)) as [|Hn]; [done|].
    exfalso. apply Hout. apply list_elem_of_fmap_2.
    by apply list_elem_of_filter.
  - intros Hst Hin. apply list_elem_of_fmap in Hin as (y & Hk & Hy).
    apply list_elem_of_filter in Hy as [Hny Hy].
    assert (x = y) by (by eapply fmap_inj_on). by subst.
Qed.

Lemma emit_inFlight m s :
  inFlight (emit m s)
  = inFlight s - Z.of_nat (length (filter (λ l, ¬ stale m l) (listeners s))).
Proof. by rewrite emit_unfold, emit_on_inFlight. Qed.

Lemma emit_calls m s : calls (emit m s) = calls s ++ answers m (listeners s).
Proof. by rewrite emit_unfold, emit_on_calls. Qed.

Lemma emit_wf m s : wf s → wf (emit m s).
Proof.
  intros [Hnd Hlt]. split.
  - rewrite emit_listeners by done.
    apply (sublist_NoDup _ (l_key <$> listeners s)); [done|].
    apply fmap_sublist, sublist_filter.
  - rewrite emit_listeners by done. rewrite emit_unfold, emit_on_fresh.
    rewrite Forall_forall in *. intros x Hx.
    apply list_elem_of_filter in Hx as [_ Hx]. auto.
Qed.

(** ** The budget invariant *)


Lemma slotted_le ws : (slotted ws ≤ length ws)%nat.
Proof. apply length_filter. Qed.

Lemma slotted_app ws1 ws2 : slotted (ws1 ++ ws2) = (slotted ws1 + slotted ws2)%nat.
Proof. unfold slotted. by rewrite filter_app, length_app. Qed.

Lemma slotted_cons w ws :
  slotted (w :: ws) = ((if w_slot w then 1 else 0) + slotted ws)%nat.
Proof.
  unfold slotted. rewrite filter_cons.
  destruct (w_slot w); by simpl.
Qed.

Lemma InvR_ext rest s s' :
  listeners s' = listeners s → waiters s' = waiters s →
  inFlight s' = inFlight s → fresh s' = fresh s →
  InvR rest s → InvR rest s'.
Proof.
  unfold InvR, wf. intros Hl Hw Hi Hf. rewrite Hl, Hw, Hi, Hf. tauto.
Qed.

Lemma transmit_waiters w s : waiters (transmit w s) = waiters s.
Proof.
  unfold transmit. simpl. destruct (ws s); rewrite ?invoke_waiters; done.
Qed.

Lemma transmit_inFlight w s : inFlight (transmit w s) = inFlight s.
Proof.
  unfold transmit. simpl. destruct (ws s); rewrite ?invoke_inFlight; done.
Qed.

Lemma transmit_fresh w s : fresh (transmit w s) = S (fresh s).
Proof.
  unfold transmit. simpl. destruct (ws s); rewrite ?invoke_fresh; done.
Qed.

Lemma transmit_listeners w s :
  ∃ l, listeners (transmit w s) = listeners s ++ [l]
       ∧ l_key l = fresh s ∧ l_id l = w_id w ∧ l_cb l = w_cb w
       ∧ l_data l = w_data w.
Proof.
  unfold transmit. simpl. destruct (ws s); rewrite ?invoke_listeners;
    st_simpl; eexists; (split; [done|]); done.
Qed.

Lemma transmit_wf w s : wf s → wf (transmit w s).
Proof.
  intros [Hnd Hlt].
  destruct (transmit_listeners w s) as (l & Hl & Hk & _).
  unfold wf. rewrite Hl, transmit_fresh. split.
  - rewrite fmap_app. simpl. apply NoDup_app. split; [done|]. split.
    + intros k Hin Hk'. apply list_elem_of_singleton in Hk'. subst k.
      apply list_elem_of_fmap in Hin as (y & Hy & Hin).
      rewrite Forall_forall in Hlt. specialize (Hlt y Hin). lia.
    + apply NoDup_singleton.
  - apply Forall_app. split.
    + eapply Forall_impl; [done|]. simpl. intros; lia.
    + apply Forall_singleton. lia.
Qed.

Lemma transmit_InvR w rest s :
  inFlight s < capacity ∨ w_slot w = true →
  InvR (w :: rest) s → InvR rest (transmit w s).
Proof.
  intros Hadm (Hwf & Hb & Hc).
  destruct (transmit_listeners w s) as (l & Hl & _).
  split; [by apply transmit_wf|].
  rewrite Hl, transmit_waiters, transmit_inFlight, length_app.
  rewrite slotted_cons in Hc. simpl in *.
  pose proof (slotted_le (waiters s)). pose proof (slotted_le rest).
  unfold capacity in *. destruct Hadm as [?|Hs].
  - split; lia.
  - rewrite Hs in Hc. split; lia.
Qed.

Lemma keep_InvR w w' rest s :
  w_slot w' = w_slot w → InvR (w :: rest) s → InvR rest (keep w' s).
Proof.
  intros Hs (Hwf & Hb & Hc). unfold InvR, wf, keep in *. st_simpl.
  rewrite length_app, slotted_app, !slotted_cons in *. simpl in *.
  rewrite Hs. unfold slotted at 2. simpl. split; [done|]. split; lia.
Qed.

Lemma keep_slot_InvR w rest s :
  inFlight s < capacity →
  InvR (w :: rest) s → InvR rest (keep (set_w_slot true w) s).
Proof.
  intros Hlt (Hwf & Hb & Hc). unfold InvR, wf, keep in *. st_simpl.
  rewrite length_app, slotted_app, !slotted_cons in *. simpl in *.
  unfold slotted at 2. simpl.
  pose proof (slotted_le (waiters s)). pose proof (slotted_le rest).
  unfold capacity in *. split; [done|]. split; lia.
Qed.

Lemma waitForSlot_InvR w rest s :
  InvR (w :: rest) s → InvR rest (waitForSlot w s).
Proof.
  intros H. unfold waitForSlot.
  destruct (w_slot w) eqn:Hs; [by apply (keep_InvR w)|].
  repeat case_bool_decide.
  - apply transmit_InvR; auto.
  - by apply keep_slot_InvR.
  - by apply (keep_InvR w).
  - by apply (keep_InvR w).
Qed.

Lemma foldl_InvR (f : steem → waiter → steem) :
  (∀ w rest s, InvR (w :: rest) s → InvR rest (f s w)) →
  ∀ ws s, InvR ws s → Inv (foldl f s ws).
Proof.
  intros Hf ws. induction ws as [|w ws IH]; intros s H; [done|].
  simpl. apply IH. by apply Hf.
Qed.

Lemma InvR_take s s' :
  listeners s' = listeners s → waiters s' = [] →
  inFlight s' = inFlight s → fresh s' = fresh s →
  Inv s → InvR (waiters s) s'.
Proof.
  unfold Inv, InvR, wf. intros -> -> -> -> (Hwf & Hb & Hc).
  unfold slotted in *. simpl in *. split; [done|]. split; lia.
Qed.

Lemma tick_Inv s : Inv s → Inv (tick s).
Proof.
  intros H. unfold tick. apply foldl_InvR.
  - intros. by apply waitForSlot_InvR.
  - by apply InvR_take.
Qed.

Lemma ws_open_Inv g s : Inv s → Inv (ws_open g s).
Proof.
  intros H. unfold ws_open. case_bool_decide; [|done].
  apply foldl_InvR.
  - intros w rest s' H'. destruct (bool_decide _ && w_slot w) eqn:E.
    + apply andb_true_iff in E as [_ E]. apply transmit_InvR; auto.
    + by apply (keep_InvR w).
  - by apply InvR_take.
Qed.

Lemma emit_Inv m s : Inv s → Inv (emit m s).
Proof.
  intros (Hwf & Hb & Hc). split; [by apply emit_wf|].
  destruct Hwf as [Hnd _].
  rewrite emit_inFlight, emit_listeners by done.
  rewrite emit_unfold, emit_on_waiters.
  pose proof (length_filter_split (stale m) (listeners s)).
  simpl in *. split; lia.
Qed.

Lemma ws_message_Inv g m s : Inv s → Inv (ws_message g m s).
Proof.
  intros H. unfold ws_message. case_bool_decide; [|done].
  apply emit_Inv. by eapply InvR_ext; [..|exact H].
Qed.

Lemma ws_close_Inv g s : Inv s → Inv (ws_close g s).
Proof.
  intros H. unfold ws_close. case_bool_decide; [|done].
  by eapply InvR_ext; [..|exact H].
Qed.

Lemma release_ws_fold rs s :
  let s' := foldl (λ s r, release_ws r s) s rs in
  listeners s' = listeners s ∧ waiters s' = waiters s
  ∧ inFlight s' = inFlight s ∧ fresh s' = fresh s
  ∧ calls s' = calls s.
Proof.
  revert s. induction rs as [|r rs IH]; intros s; [done|].
  simpl. destruct (IH (release_ws r s)) as (-> & -> & -> & -> & ->). done.
Qed.

Lemma stop_Inv s : Inv s → Inv (stop s).
Proof.
  intros H. unfold stop.
  match goal with |- Inv (set_releases _ (foldl _ ?s0 ?rs)) =>
    destruct (release_ws_fold rs s0) as (Hl & Hw & Hi & Hf & _) end.
  eapply InvR_ext; [..|exact H]; st_simpl;
    rewrite ?Hl, ?Hw, ?Hi, ?Hf; by destruct (ws s).
Qed.

Lemma nextId_core d s :
  let s' := (nextId d s).2 in
  listeners s' = listeners s ∧ waiters s' = waiters s
  ∧ inFlight s' = inFlight s ∧ fresh s' = fresh s.
Proof. unfold nextId. by repeat case_match. Qed.

Lemma send_via_Inv start api d cb s :
  (∀ s, Inv s → Inv (start s).2) → Inv s → Inv (send_via start api d cb s).
Proof.
  intros Hstart H. unfold send_via.
  pose proof (nextId_core d s) as Hn. destruct (nextId d s) as [i s1].
  simpl in Hn. destruct Hn as (Hl & Hw & Hi & Hf).
  assert (Inv s1) as H1 by (by eapply InvR_ext; [..|exact H]).
  specialize (Hstart s1 H1). destruct (start s1) as [g s2]. simpl in Hstart.
  destruct Hstart as (Hwf & Hb & Hc).
  unfold Inv, InvR, wf, keep in *. st_simpl.
  rewrite length_app, slotted_app in *. unfold slotted at 2. simpl in *.
  split; [done|]. split; lia.
Qed.

Lemma getApiIds_Inv g s : Inv s → Inv (getApiIds g s).
Proof.
  unfold getApiIds. generalize (keys (apiIds s)). intros names.
  revert s. induction names as [|name names IH]; intros s H; [done|].
  simpl. apply IH. by apply send_via_Inv.
Qed.

Lemma start_Inv s : Inv s → Inv (start s).2.
Proof.
  intros H. unfold start. destruct (startP s); [done|].
  simpl. apply getApiIds_Inv. by eapply InvR_ext; [..|exact H].
Qed.

Lemma send_Inv api d cb s : Inv s → Inv (send api d cb s).
Proof. apply send_via_Inv, start_Inv. Qed.

Lemma step_Inv s e : Inv s → Inv (step s e).
Proof.
  intros H. destruct e; simpl.
  - by apply send_Inv.
  - by apply stop_Inv.
  - unfold setWebSocket. apply stop_Inv. by eapply InvR_ext; [..|exact H].
  - by apply tick_Inv.
  - by apply ws_open_Inv.
  - by apply ws_close_Inv.
  - by apply ws_message_Inv.
  - by apply emit_Inv.
Qed.

Lemma constructor_Inv opts : Inv (constructor opts).2.
Proof.
  unfold Inv, InvR, wf, capacity, slotted. simpl.
  split; [split; constructor|]. split; lia.
Qed.

Lemma run_Inv es s : Inv s → Inv (run es s).
Proof.
  revert s. induction es as [|e es IH]; intros s H; [done|].
  simpl. apply IH. by apply step_Inv.
Qed.

(** At a check that finds [capacity] or more calls in flight no waiting
    call moves on: it is kept, with a new delay if its own has ended. *)
Lemma waitForSlot_full w s :
  capacity ≤ inFlight s →
  ∃ w', waitForSlot w s = keep w' s ∧ w_slot w' = w_slot w.
Proof.
  intros H. unfold waitForSlot. destruct (w_slot w) eqn:Hs; [by exists w|].
  case_bool_decide; [|by exists w].
  rewrite bool_decide_eq_false_2 by lia. by eexists.
Qed.





(** ** Correlation of responses *)

Lemma answers_single m a :
  answers m [a]
  = if decide (l_id a = m_id m ∧ l_settled a = false)
    then [(l_cb a, reply m a)] else [].
Proof.
  unfold answers. rewrite filter_cons, filter_nil.
  by destruct (decide _).
Qed.

Lemma answers_cons m a ls : answers m (a :: ls) = answers m [a] ++ answers m ls.
Proof. by rewrite <- answers_app. Qed.

Lemma answers_none m ls :
  (∀ l, l ∈ ls → l_id l ≠ m_id m) → answers m ls = [].
Proof.
  induction ls as [|a ls IH]; intros H; [done|].
  rewrite answers_cons, answers_single, IH.
  - rewrite decide_False; [done|]. intros [Ha _]. apply (H a); [by left|done].
  - intros l Hl. apply H. by right.
Qed.

Lemma answers_unique m ls l :
  NoDup (l_id <$> ls) → l ∈ ls → l_id l = m_id m → l_settled l = false →
  answers m ls = [(l_cb l, reply m l)].
Proof.
  induction ls as [|a ls IH]; intros Hnd Hl Hid Hs.
  { by apply elem_of_nil in Hl. }
  rewrite fmap_cons in Hnd. apply NoDup_cons in Hnd as [Ha Hnd].
  rewrite answers_cons, answers_single.
  apply elem_of_cons in Hl as [->|Hl].
  - rewrite decide_True by done. rewrite answers_none; [done|].
    intros l' Hl' Heq. apply Ha. rewrite Hid, <- Heq.
    by apply list_elem_of_fmap_2.
  - rewrite decide_False; [by apply IH|].
    intros [Heq _]. apply Ha. rewrite Heq, <- Hid.
    by apply list_elem_of_fmap_2.
Qed.

Lemma answers_length m ls :
  NoDup (l_id <$> ls) → (length (answers m ls) ≤ 1)%nat.
Proof.
  induction ls as [|a ls IH]; intros Hnd; [simpl; lia|].
  rewrite fmap_cons in Hnd. apply NoDup_cons in Hnd as [Ha Hnd].
  rewrite answers_cons, answers_single, length_app.
  destruct (decide _) as [[Hid _]|_]; [|simpl; auto].
  rewrite answers_none; [done|].
  intros l' Hl' Heq. apply Ha. rewrite Hid, <- Heq.
  by apply list_elem_of_fmap_2.
Qed.

Lemma emit_NoDup m s :
  NoDup (l_key <$> listeners s) → NoDup (l_key <$> listeners (emit m s)).
Proof.
  intros Hnd. rewrite emit_listeners by done.
  apply (sublist_NoDup _ (l_key <$> listeners s)); [done|].
  apply fmap_sublist, sublist_filter.
Qed.

Lemma emits_calls ms s : ∃ more, calls (emits ms s) = calls s ++ more.
Proof.
  revert s. induction ms as [|m ms IH]; intros s; simpl.
  - exists []. by rewrite app_nil_r.
  - destruct (IH (emit m s)) as [more ->]. rewrite emit_calls.
    eexists. by rewrite <- app_assoc.
Qed.

(** Responses that arrive in increasing order of identity each reach
    the listener of their request. *)
Lemma emits_in_order ms s l m :
  NoDup (l_key <$> listeners s) →
  StronglySorted Z.lt (m_id <$> ms) →
  l ∈ listeners s → m ∈ ms → l_id l = m_id m → l_settled l = false →
  (l_cb l, reply m l) ∈ calls (emits ms s).
Proof.
  revert s. induction ms as [|m0 ms IH]; intros s Hnd Hsort Hl Hm Hid Hs.
  { by apply elem_of_nil in Hm. }
  rewrite fmap_cons in Hsort. apply StronglySorted_inv in Hsort as [Hsort Hlt].
  simpl. apply elem_of_cons in Hm as [->|Hm].
  - destruct (emits_calls ms (emit m0 s)) as [more ->].
    rewrite emit_calls. apply elem_of_app. left. apply elem_of_app. right.
    unfold answers. apply list_elem_of_bind. exists l. split.
    + by left.
    + apply list_elem_of_filter. done.
  - apply IH; try done.
    + by apply emit_NoDup.
    + rewrite emit_listeners by done. apply list_elem_of_filter.
      split; [|done]. unfold stale. rewrite Hid.
      rewrite Forall_forall in Hlt. apply Hlt.
      by apply list_elem_of_fmap_2.
Qed.

(** C1, as the code has it. Among pending requests with distinct
    identities, a message tagged [i] invokes the callback of at most one
    request, the one with identity [i] (none if no request has it). It
    unregisters every listener whose identity is [i] or less, those
    below [i] without resolving them, and leaves registered exactly the
    listeners with an identity above [i]. So responses that are emitted
    in increasing order of identity all reach their callers. *)
Theorem C1_correlation (s : steem) (m : message) (ms : list message) :
  NoDup (l_key <$> listeners s) →
  NoDup (l_id <$> listeners s) →
  (calls (emit m s) = calls s ++ answers m (listeners s)
   ∧ (length (answers m (listeners s)) ≤ 1)%nat
   ∧ (∀ l, l ∈ listeners s → l_id l = m_id m → l_settled l = false →
        answers m (listeners s) = [(l_cb l, reply m l)])
   ∧ ((∀ l, l ∈ listeners s → l_id l ≠ m_id m) →
        answers m (listeners s) = []))
  ∧ listeners (emit m s) = filter (stale m) (listeners s)
  ∧ (StronglySorted Z.lt (m_id <$> ms) →
     ∀ l m', l ∈ listeners s → m' ∈ ms → l_id l = m_id m' →
       l_settled l = false →
       (l_cb l, reply m' l) ∈ calls (emits ms s)).
Proof.
  intros Hkeys Hids. split; [|split].
  - split; [apply emit_calls|]. split; [by apply answers_length|].
    split; [intros; by apply answers_unique | apply answers_none].
  - by apply emit_listeners.
  - intros Hsort l m' Hl Hm Hid Hs. by apply emits_in_order.
Qed.

(** Requests 5 and 6 pending. The message for 6 runs only the callback
    of 6 and leaves no listener; the messages for 5 and then 6 reach
    both callers. *)
Lemma C1_correlation_witness :
  let m5 := result 5 (JStr "five") in
  let m6 := result 6 (JStr "six") in
  NoDup (l_key <$> listeners pending56)
  ∧ NoDup (l_id <$> listeners pending56)
  ∧ StronglySorted Z.lt (m_id <$> [m5; m6])
  ∧ calls (emit m6 pending56)
    = calls pending56 ++ [(CbUser 6, Resolved (JStr "six"))]
  ∧ listeners (emit m6 pending56) = []
  ∧ (CbUser 5, Resolved (JStr "five")) ∈ calls (emits [m5; m6] pending56)
  ∧ (CbUser 6, Resolved (JStr "six")) ∈ calls (emits [m5; m6] pending56).
Proof.
  intros m5 m6.
  assert (NoDup (l_key <$> listeners pending56)) as Hk
    by (apply (bool_decide_unpack _); vm_compute; exact I).
  assert (NoDup (l_id <$> listeners pending56)) as Hi
    by (apply (bool_decide_unpack _); vm_compute; exact I).
  assert (StronglySorted Z.lt (m_id <$> [m5; m6])) as Hs.
  { simpl. repeat constructor. }
  split; [exact Hk|]. split; [exact Hi|]. split; [exact Hs|].
  destruct (C1_correlation pending56 m6 [m5; m6] Hk Hi)
    as ((Hc & _) & Hl & Hord).
  split; [rewrite Hc; vm_compute; reflexivity|].
  split; [rewrite Hl; vm_compute; reflexivity|].
  assert (∃ l5 l6, listeners pending56 = [l5; l6]
                   ∧ l_id l5 = 5 ∧ l_id l6 = 6
                   ∧ l_cb l5 = CbUser 5 ∧ l_cb l6 = CbUser 6
                   ∧ l_settled l5 = false ∧ l_settled l6 = false
                   ∧ d_error (l_data l5) = JUndef
                   ∧ d_error (l_data l6) = JUndef)
    as (l5 & l6 & Hls & H5 & H6 & Hc5 & Hc6 & Hs5 & Hs6 & He5 & He6).
  { vm_compute. do 2 eexists. repeat split. }
  split.
  - pose proof (Hord Hs l5 m5) as H. unfold reply in H.
    rewrite Hc5, He5 in H. apply H; [rewrite Hls; by left|by left|done..].
  - pose proof (Hord Hs l6 m6) as H. unfold reply in H.
    rewrite Hc6, He6 in H.
    apply H; [rewrite Hls; right; by left|right; by left|done..].
Defined.

(** With requests 5 and 6 pending and the replies emitted as 6 then 5,
    the caller of 5 never gets a result: the message for 6 unregisters
    the listener of 5, and the message for 5 finds no listener. *)
Lemma C1_counterexample :
  let s := run [EEmit (result 6 (JStr "six")); EEmit (result 5 (JStr "five"))]
               pending56 in
  l_id <$> listeners pending56 = [5; 6]
  ∧ calls s = calls pending56 ++ [(CbUser 6, Resolved (JStr "six"))]
  ∧ (∀ o, (CbUser 5, o) ∉ calls s)
  ∧ listeners s = [].
Proof.
  vm_compute. split; [done|]. split; [done|]. split; [|done].
  intros o H. repeat (apply elem_of_cons in H as [H|H]; [discriminate|]).
  by apply elem_of_nil in H.
Qed.

(** ** Release of the budget *)

Lemma emits_budget ms s :
  NoDup (l_key <$> listeners s) →
  inFlight s - inFlight (emits ms s)
  = Z.of_nat (length (listeners s))
    - Z.of_nat (length (listeners (emits ms s)))
  ∧ listeners (emits ms s) `sublist_of` listeners s.
Proof.
  revert s. induction ms as [|m ms IH]; intros s Hnd; simpl.
  { split; [lia|done]. }
  destruct (IH (emit m s) (emit_NoDup m s Hnd)) as [Hb Hsub].
  rewrite emit_inFlight in Hb. rewrite emit_listeners in Hb, Hsub by done.
  pose proof (length_filter_split (stale m) (listeners s)).
  split; [lia|]. etrans; [exact Hsub|]. apply sublist_filter.
Qed.

(** C2, as the code has it. A listener takes one unit off [inFlight]
    when the first message arrives whose identity is its own or larger,
    its response or that of a later request, and unregisters in the same
    step; so no request is counted off twice, and over any sequence of
    messages the units taken off are the listeners that have left. A
    message that is stale for every listener changes nothing: no unit is
    taken off and no callback runs. *)
Theorem C2_release (s : steem) (m : message) (ms : list message) :
  NoDup (l_key <$> listeners s) →
  inFlight (emit m s)
  = inFlight s - Z.of_nat (length (filter (λ l, l_id l ≤ m_id m) (listeners s)))
  ∧ listeners (emit m s) = filter (λ l, m_id m < l_id l) (listeners s)
  ∧ (Forall (λ l, m_id m < l_id l) (listeners s) → emit m s = s)
  ∧ inFlight s - inFlight (emits ms s)
    = Z.of_nat (length (listeners s))
      - Z.of_nat (length (listeners (emits ms s)))
  ∧ listeners (emits ms s) `sublist_of` listeners s.
Proof.
  intros Hnd. split; [|split; [|split]].
  - rewrite emit_inFlight. do 3 f_equal.
    apply list_filter_iff. intros l. unfold stale. lia.
  - by apply emit_listeners.
  - intros Hall. rewrite emit_unfold. by apply emit_on_all_stale.
  - by apply emits_budget.
Qed.

(** Requests 5 and 6 pending: the message for 5 takes one unit off and
    leaves the listener of 6; a message for 4 changes nothing. *)
Lemma C2_release_witness :
  NoDup (l_key <$> listeners pending56)
  ∧ inFlight pending56 = 2
  ∧ inFlight (emit (result 5 JNull) pending56) = 1
  ∧ l_id <$> listeners (emit (result 5 JNull) pending56) = [6]
  ∧ emit (result 4 JNull) pending56 = pending56.
Proof.
  assert (NoDup (l_key <$> listeners pending56)) as Hk
    by (apply (bool_decide_unpack _); vm_compute; exact I).
  split; [exact Hk|]. split; [by vm_compute|].
  destruct (C2_release pending56 (result 5 JNull) [] Hk) as (Hi & Hl & _).
  destruct (C2_release pending56 (result 4 JNull) [] Hk) as (_ & _ & Hst & _).
  split; [|split].
  - rewrite Hi. vm_compute. reflexivity.
  - rewrite Hl. vm_compute. reflexivity.
  - apply Hst. vm_compute. repeat constructor.
Defined.

(** Requests 5 and 6 pending, the message for 6: it is mismatched for
    the listener of 5, and that listener takes its unit off as well. Two
    units are released by one response. *)
Lemma C2_counterexample :
  let s := emit (result 6 (JStr "six")) pending56 in
  l_id <$> listeners pending56 = [5; 6]
  ∧ inFlight pending56 = 2
  ∧ inFlight s = 0
  ∧ calls s = calls pending56 ++ [(CbUser 6, Resolved (JStr "six"))].
Proof. by vm_compute. Qed.

(** ** Errors of a response *)

Lemma on_message_ignores_error l i r e e' s :
  on_message l (Message i r e) s = on_message l (Message i r e') s.
Proof. done. Qed.

(** C5 at its failing input. The response to the first request of a
    client carries an error and no result: the listener reads the
    [error] of the request's own [data], finds none, and resolves the
    caller with the absent result. *)
Theorem C5_error_of_response_ignored :
  let s := run error_reply steem0 in
  calls s = [(CbUser 0, Resolved JUndef)]
  ∧ l_id <$> listeners s = [1; 2; 3; 4].
Proof. by vm_compute. Qed.

(** ** Closing the connection *)

Lemma stop_keeps s :
  calls (stop s) = calls s ∧ listeners (stop s) = listeners s
  ∧ waiters (stop s) = waiters s ∧ inFlight (stop s) = inFlight s.
Proof.
  unfold stop.
  match goal with |- context [foldl _ ?s0 ?rs] =>
    destruct (release_ws_fold rs s0) as (Hl & Hw & Hi & _ & Hc) end.
  st_simpl. rewrite Hl, Hw, Hi, Hc. by destruct (ws s).
Qed.



(** ** Identities *)


Lemma nextId_explicit v method params err s :
  v ≠ 0 → nextId (Data (Some v) method params err) s = (v, s).
Proof.
  intros Hv. unfold nextId. simpl.
  by rewrite (proj2 (Z.eqb_neq v 0)).
Qed.

Lemma nextId_absent method params err s :
  nextId (Data None method params err) s
  = (this_id s, set_this_id (this_id s + 1) s).
Proof. done. Qed.

(** C9 at its failing input. An explicit identity 0 is falsy for [||]:
    the request gets the next identity of the counter instead, as if
    none had been supplied. *)
Theorem C9_explicit_zero (method : string) (params err : jsval) (s : steem) :
  nextId (Data (Some 0) method params err) s
  = (this_id s, set_this_id (this_id s + 1) s).
Proof. done. Qed.

(** ** Order of the writes *)


(** ** The constructor *)

Lemma get_set_eq k v o : get k (set k v o) = v.
Proof.
  induction o as [|[k' v'] o IH]; simpl.
  - by rewrite String.eqb_refl.
  - destruct (String.eqb k k') eqn:E; simpl.
    + by rewrite String.eqb_refl.
    + by rewrite E.
Qed.

Lemma get_set_ne k k' v o : k ≠ k' → get k' (set k v o) = get k' o.
Proof.
  intros Hne. induction o as [|[k0 v0] o IH]; simpl.
  - by rewrite (proj2 (String.eqb_neq k' k)).
  - destruct (String.eqb k k0) eqn:E; simpl.
    + apply String.eqb_eq in E. subst k0.
      by rewrite (proj2 (String.eqb_neq k' k)).
    + by rewrite IH.
Qed.

Lemma assign_DEFAULTS opts :
  assign opts DEFAULTS
  = set "id" (JNum 0)
      (set "apiIds" (JObj DEFAULTS_apiIds)
         (set "url" (JStr "wss://steemit.com/wspa") opts)).
Proof. done. Qed.

(** C10. Whatever object the caller passes, [Object.assign] writes the
    defaults over it: the stored options have the [url], [apiIds] and
    [id] of [DEFAULTS] (and [this.apiIds] is the default table), the
    caller's object has them too after the call, that object being the
    target of the assignment, and every other key keeps the caller's
    value in both. *)
Theorem C10_defaults_win (opts : jsobj) :
  let caller := (constructor opts).1 in
  let this := (constructor opts).2 in
  (get "url" (options this) = get "url" DEFAULTS
   ∧ get "apiIds" (options this) = get "apiIds" DEFAULTS
   ∧ get "id" (options this) = get "id" DEFAULTS
   ∧ apiIds this = DEFAULTS_apiIds)
  ∧ (caller = assign opts DEFAULTS
     ∧ get "url" caller = JStr "wss://steemit.com/wspa"
     ∧ get "apiIds" caller = JObj DEFAULTS_apiIds
     ∧ get "id" caller = JNum 0)
  ∧ (∀ k, k ∉ keys DEFAULTS →
       get k caller = get k opts ∧ get k (options this) = get k opts).
Proof.
  intros caller this. subst caller this.
  unfold constructor, cloneDeep. cbn [fst snd options apiIds].
  rewrite assign_DEFAULTS.
  assert (get "apiIds"
            (set "id" (JNum 0)
               (set "apiIds" (JObj DEFAULTS_apiIds)
                  (set "url" (JStr "wss://steemit.com/wspa") opts)))
          = JObj DEFAULTS_apiIds) as Hapi.
  { rewrite get_set_ne by done. apply get_set_eq. }
  assert (get "url"
            (set "id" (JNum 0)
               (set "apiIds" (JObj DEFAULTS_apiIds)
                  (set "url" (JStr "wss://steemit.com/wspa") opts)))
          = JStr "wss://steemit.com/wspa") as Hurl.
  { rewrite !get_set_ne by done. apply get_set_eq. }
  rewrite Hapi, Hurl, get_set_eq.
  split; [done|]. split; [done|].
  intros k Hk.
  assert (get k
            (set "id" (JNum 0)
               (set "apiIds" (JObj DEFAULTS_apiIds)
                  (set "url" (JStr "wss://steemit.com/wspa") opts)))
          = get k opts) as ->; [|done].
  rewrite !get_set_ne; [done|..]; intros <-; apply Hk;
    unfold keys, DEFAULTS; simpl; set_solver.
Qed.

(** A caller's [url] is overwritten, in the stored options and in the
    caller's own object; a key of its own is kept. *)
Example constructor_overwrites :
  let opts := [("url", JStr "ws://localhost:8090"); ("timeout", JNum 5)] in
  (constructor opts).1
  = [("url", JStr "wss://steemit.com/wspa"); ("timeout", JNum 5);
     ("apiIds", JObj DEFAULTS_apiIds); ("id", JNum 0)]
  ∧ options (constructor opts).2 = (constructor opts).1.
Proof. done. Qed.

(** ** The polling streams *)

Module StreamFacts.
Import Stream.

#[local] Hint Unfold set_current set_running set_phase set_blk_current
  set_blk_last set_fetching set_queries set_out : st.

Lemma poll_watcher blockId st :
  layer_of st = BlockNumberL → phase_of st = Querying → running st = true →
  let st' := poll blockId st in
  layer_of st' = BlockNumberL ∧ phase_of st' = Querying ∧ running st' = true
  ∧ current st'
    = (if strict_eq blockId (current st) then current st else blockId)
  ∧ out st'
    = out st ++ (if strict_eq blockId (current st) then [] else [Num blockId]).
Proof.
  intros Hl Hp Hr. unfold poll, on_head, on_elapsed. rewrite Hp.
  destruct (strict_eq blockId (current st)); simpl.
  - unfold update. simpl. rewrite Hr. simpl. by rewrite app_nil_r.
  - unfold number_cb. simpl. rewrite Hl. unfold update. simpl.
    rewrite Hr. done.
Qed.

Lemma polls_watcher blockIds st :
  layer_of st = BlockNumberL → phase_of st = Querying → running st = true →
  out (polls blockIds st) = out st ++ (Num <$> changes (current st) blockIds).
Proof.
  revert st. induction blockIds as [|x xs IH]; intros st Hl Hp Hr; simpl.
  { by rewrite app_nil_r. }
  destruct (poll_watcher x st Hl Hp Hr) as (Hl' & Hp' & Hr' & Hc & Ho).
  rewrite IH, Hc, Ho by done.
  destruct (strict_eq x (current st)); simpl.
  - by rewrite app_nil_r.
  - by rewrite <- app_assoc.
Qed.

(** C7, as the code has it. A tick of the watcher emits the head
    identity exactly when it differs from the stored one, and stores it
    then; over a feeds of ticks it emits the identities that differ from
    the one before them. The stored value of a fresh stream is the empty
    string, so the first identity seen is emitted too: the heads 100,
    100, 101, 101, 102 give three events, for 100, 101 and 102. *)
Theorem C7_block_numbers (st : stream) (blockId : jsval) (blockIds : list jsval) :
  layer_of st = BlockNumberL → phase_of st = Querying → running st = true →
  (out (on_head blockId st)
   = out st ++ (if strict_eq blockId (current st) then [] else [Num blockId])
   ∧ current (on_head blockId st)
     = (if strict_eq blockId (current st) then current st else blockId))
  ∧ out (polls blockIds st) = out st ++ (Num <$> changes (current st) blockIds)
  ∧ out (polls (JNum <$> [100; 100; 101; 101; 102]) (streamBlockNumber 200))
    = [Num (JNum 100); Num (JNum 101); Num (JNum 102)].
Proof.
  intros Hl Hp Hr. split; [|split; [by apply polls_watcher | done]].
  unfold on_head. rewrite Hp.
  destruct (strict_eq blockId (current st)); simpl.
  - by rewrite app_nil_r.
  - unfold number_cb. simpl. by rewrite Hl.
Qed.

(** A fresh watcher: the first head is emitted, the same head again is
    not. *)
Lemma C7_block_numbers_witness :
  let st := streamBlockNumber 200 in
  layer_of st = BlockNumberL ∧ phase_of st = Querying ∧ running st = true
  ∧ out (on_head (JNum 100) st) = [Num (JNum 100)]
  ∧ out (polls [JNum 100; JNum 100] st) = [Num (JNum 100)].
Proof.
  intros st.
  assert (layer_of st = BlockNumberL) as Hl by reflexivity.
  assert (phase_of st = Querying) as Hp by reflexivity.
  assert (running st = true) as Hr by reflexivity.
  do 3 (split; [reflexivity|]).
  destruct (C7_block_numbers st (JNum 100) [JNum 100; JNum 100] Hl Hp Hr)
    as ((Ho & _) & Hs & _).
  split.
  - rewrite Ho. reflexivity.
  - rewrite Hs. reflexivity.
Defined.

(** A fresh watcher that sees the heads 100, 100, 101, 101, 102 emits
    three events, not two: the first is for 100. *)
Lemma C7_counterexample :
  let emitted :=
    out (polls (JNum <$> [100; 100; 101; 101; 102]) (streamBlockNumber 200)) in
  emitted ≠ [Num (JNum 101); Num (JNum 102)]
  ∧ length emitted = 3%nat
  ∧ emitted !! 0%nat = Some (Num (JNum 100)).
Proof. by vm_compute. Qed.

Lemma settles_refl st : settles st st.
Proof. by unfold settles. Qed.

Lemma settles_trans st1 st2 st3 :
  settles st1 st2 → settles st2 st3 → settles st1 st3.
Proof.
  unfold settles. intros (Hl1 & Hp1 & Hq1 & Hr1) (Hl2 & Hp2 & Hq2 & Hr2).
  repeat split; [congruence..|auto].
Qed.

Lemma callback_settles i st : settles st (callback i st).
Proof. by unfold settles. Qed.

Lemma cancel_settles st : settles st (cancel st).
Proof. by unfold settles. Qed.

Lemma foldl_settles {A} (f : stream → A → stream) xs st :
  (∀ st x, settles st (f st x)) → settles st (foldl f st xs).
Proof.
  intros Hf. revert st. induction xs as [|x xs IH]; intros st; simpl.
  - apply settles_refl.
  - eapply settles_trans; [apply Hf | apply IH].
Qed.

Lemma operations_cb_settles ev st : settles st (operations_cb ev st).
Proof.
  destruct ev as [err|t]; simpl.
  - eapply settles_trans; [apply cancel_settles | apply callback_settles].
  - apply foldl_settles. intros. apply callback_settles.
Qed.

Lemma transaction_cb_settles ev st : settles st (transaction_cb ev st).
Proof.
  unfold transaction_cb.
  destruct (layer_of st); auto using callback_settles, operations_cb_settles.
Qed.

Lemma transactions_cb_settles ev st : settles st (transactions_cb ev st).
Proof.
  destruct ev as [err|b]; simpl.
  - eapply settles_trans; [apply cancel_settles | apply transaction_cb_settles].
  - apply foldl_settles. intros. apply transaction_cb_settles.
Qed.

Lemma block_cb_settles ev st : settles st (block_cb ev st).
Proof.
  unfold block_cb.
  destruct (layer_of st);
    auto using settles_refl, callback_settles, transactions_cb_settles.
Qed.

Lemma blocknumber_cb_settles ev st : settles st (blocknumber_cb ev st).
Proof.
  destruct ev as [err|id]; simpl.
  - eapply settles_trans; [apply cancel_settles | apply block_cb_settles].
  - by destruct (negb _).
Qed.

Lemma number_cb_settles ev st : settles st (number_cb ev st).
Proof.
  unfold number_cb.
  destruct (layer_of st); auto using callback_settles, blocknumber_cb_settles.
Qed.





Lemma wf_store_step σ e : wf_store σ → wf_store (feed σ e).
Proof.
  intros Hwf k. destruct e; simpl;
    try (rewrite lookup_alter_is_Some; apply Hwf).
  rewrite lookup_insert_is_Some. intros [<-|[_ Hk]]; [lia|].
  specialize (Hwf k Hk). lia.
Qed.

Lemma wf_store_run es σ : wf_store σ → wf_store (feeds es σ).
Proof.
  revert σ. induction es as [|e es IH]; intros σ H; [done|].
  simpl. apply IH. by apply wf_store_step.
Qed.

Lemma wf_store_empty : wf_store empty.
Proof. intros k [x Hx]. simpl in Hx. by rewrite lookup_empty in Hx. Qed.






End StreamFacts.

(** ** Instances *)

(** A client built from a caller's object with an own key: the key is
    not one of the defaults and keeps its value. *)
Lemma C10_defaults_win_witness :
  let opts := [("url"%string, JStr "ws://localhost:8090");
               ("timeout"%string, JNum 5)] in
("timeout"%string ∉ keys DEFAULTS)
  ∧ get "timeout" (constructor opts).1 = JNum 5
  ∧ get "url" (constructor opts).1 = JStr "wss://steemit.com/wspa"
  ∧ get "url" (options (constructor opts).2) = get "url" DEFAULTS.
Proof.
  intros opts.
  assert ("timeout"%string ∉ keys DEFAULTS) as Hk.
  { unfold keys, DEFAULTS. simpl. intros H.
    repeat (apply elem_of_cons in H as [H|H]; [discriminate|]).
    by apply elem_of_nil in H. }
  split; [exact Hk|].
  destruct (C10_defaults_win opts) as ((Hu & _) & (_ & Hc & _) & Hrest).
  destruct (Hrest _ Hk) as [Ht _].
  split; [rewrite Ht; reflexivity|]. split; [exact Hc | exact Hu].
Defined.


(** * Further properties *)

(** ** Frames *)

Lemma foldl_frame {A B C} (f : A → B → A) (proj : A → C) (l : list B) (a : A) :
  (∀ a b, proj (f a b) = proj a) → proj (foldl f a l) = proj a.
Proof.
  intros Hf. revert a. induction l as [|b l IH]; intros a; [done|].
  simpl. by rewrite IH.
Qed.

Ltac frame :=
  unfold waitForSlot, transmit, on_message, invoke, keep, release, release_ws,
    listenTo;
  st_simpl; repeat case_match; st_simpl; done.

Lemma waitForSlot_this_id w s : this_id (waitForSlot w s) = this_id s.
Proof. frame. Qed.



Lemma transmit_this_id w s : this_id (transmit w s) = this_id s.
Proof. frame. Qed.



Lemma on_message_this_id l m s : this_id (on_message l m s) = this_id s.
Proof. frame. Qed.

Lemma on_message_wsListeners l m s :
  wsListeners (on_message l m s) = wsListeners s.
Proof. frame. Qed.


Lemma emit_this_id m s : this_id (emit m s) = this_id s.
Proof. apply foldl_frame. intros. apply on_message_this_id. Qed.

Lemma emit_wsListeners m s : wsListeners (emit m s) = wsListeners s.
Proof. apply foldl_frame. intros. apply on_message_wsListeners. Qed.


Lemma tick_this_id s : this_id (tick s) = this_id s.
Proof.
  unfold tick. rewrite foldl_frame; [done|]. intros. apply waitForSlot_this_id.
Qed.



(** ** The generated methods *)

Lemma get_collect_notin p i ps args memo :
  p ∉ ps → get p (collect i ps args memo) = get p memo.
Proof.
  revert i memo. induction ps as [|q ps IH]; intros i memo Hp; [done|].
  apply not_elem_of_cons in Hp as [Hne Hp]. simpl.
  rewrite IH by done. by apply get_set_ne.
Qed.

Lemma collect_params i ps args memo :
  NoDup ps →
  (λ p, get p (collect i ps args memo)) <$> ps = arg args <$> seq i (length ps).
Proof.
  revert i memo. induction ps as [|q ps IH]; intros i memo Hnd; [done|].
  apply NoDup_cons in Hnd as [Hq Hnd]. simpl. f_equal.
  - rewrite get_collect_notin by done. apply get_set_eq.
  - by apply IH.
Qed.

Lemma arg_seq_from pre args :
  arg (pre ++ args) <$> seq (length pre) (length args) = args.
Proof.
  revert pre. induction args as [|a args IH]; intros pre; [done|].
  simpl. f_equal.
  - unfold arg. by rewrite list_lookup_middle.
  - specialize (IH (pre ++ [a])).
    rewrite <- app_assoc, length_app in IH. simpl in IH.
    by rewrite Nat.add_1_r in IH.
Qed.

Lemma arg_seq args : arg args <$> seq 0 (length args) = args.
Proof. apply (arg_seq_from [] args). Qed.

(** The shorthand of a method whose parameter names are distinct sends
    its arguments unchanged and in order: the detour through the
    options object loses nothing. *)
Theorem specializedSend_params (method : method_descr)
    (args : list jsval) (cb : nodeback) (s : steem) :
  NoDup (md_params method) →
  length args = length (md_params method) →
  specializedSend method args cb s
  = send (md_api method) (Data None (md_method method) (JArr args) JUndef)
         cb s.
Proof.
  intros Hnd Hlen. unfold specializedSend, specializedSendWith.
  by rewrite collect_params, <- Hlen, arg_seq.
Qed.

Lemma specializedSend_params_witness :
  let method := Method "database_api" "get_block" ["blockNum"%string] in
  NoDup (md_params method)
  ∧ length [JNum 7] = length (md_params method)
  ∧ specializedSend method [JNum 7] (CbUser 0) steem0
    = send "database_api" (Data None "get_block" (JArr [JNum 7]) JUndef)
           (CbUser 0) steem0.
Proof.
  intros method.
  assert (NoDup (md_params method)) as Hnd
    by (apply (bool_decide_unpack _); vm_compute; exact I).
  assert (length [JNum 7] = length (md_params method)) as Hlen
    by reflexivity.
  split; [exact Hnd|]. split; [exact Hlen|].
  exact (specializedSend_params method [JNum 7] (CbUser 0) steem0 Hnd Hlen).
Defined.

(** A parameter name that occurs twice gets the later argument in both
    places. *)
Example specializedSend_repeated_name :
  let method := Method "database_api" "get_ops" ["a"%string; "a"%string] in
  w_data <$> waiters (specializedSend method [JNum 1; JNum 2] (CbUser 0) started)
  = [Data None "get_ops" (JArr [JNum 2; JNum 2]) JUndef].
Proof. by vm_compute. Qed.

(** ** Identities from the counter *)

Lemma counted_mono s s' :
  waiters s' = waiters s → listeners s' = listeners s →
  this_id s ≤ this_id s' → counted s → counted s'.
Proof.
  unfold counted. intros -> -> Hle [Hw Hl]. split.
  - eapply Forall_impl; [exact Hw|]. simpl. intros w H Ha.
    specialize (H Ha). lia.
  - eapply Forall_impl; [exact Hl|]. simpl. intros l H Ha.
    specialize (H Ha). lia.
Qed.

Lemma transmit_counted n w s :
  (auto (w_data w) → w_id w < n) →
  Forall (λ l, auto (l_data l) → l_id l < n) (listeners s) →
  Forall (λ l, auto (l_data l) → l_id l < n) (listeners (transmit w s)).
Proof.
  intros Hw Hl.
  destruct (transmit_listeners w s) as (l & -> & _ & Hid & _ & Hd).
  apply Forall_app. split; [done|]. apply Forall_singleton.
  by rewrite Hid, Hd.
Qed.

Lemma keep_counted n w s :
  (auto (w_data w) → w_id w < n) →
  Forall (λ w, auto (w_data w) → w_id w < n) (waiters s) →
  Forall (λ w, auto (w_data w) → w_id w < n) (waiters (keep w s)).
Proof.
  intros Hw Hws. unfold keep. st_simpl. apply Forall_app. split; [done|].
  by apply Forall_singleton.
Qed.

Lemma waitForSlot_counted n w s :
  (auto (w_data w) → w_id w < n) →
  Forall (λ w, auto (w_data w) → w_id w < n) (waiters s) →
  Forall (λ l, auto (l_data l) → l_id l < n) (listeners s) →
  Forall (λ w, auto (w_data w) → w_id w < n) (waiters (waitForSlot w s))
  ∧ Forall (λ l, auto (l_data l) → l_id l < n) (listeners (waitForSlot w s)).
Proof.
  intros Hw Hws Hls. unfold waitForSlot.
  repeat case_match;
    rewrite ?transmit_waiters;
    (split; [try done; by apply keep_counted
            |try done; by apply transmit_counted]).
Qed.

Lemma foldl_counted n (f : steem → waiter → steem) :
  (∀ w s,
     (auto (w_data w) → w_id w < n) →
     Forall (λ w, auto (w_data w) → w_id w < n) (waiters s) →
     Forall (λ l, auto (l_data l) → l_id l < n) (listeners s) →
     Forall (λ w, auto (w_data w) → w_id w < n) (waiters (f s w))
     ∧ Forall (λ l, auto (l_data l) → l_id l < n) (listeners (f s w))) →
  ∀ ws s,
    Forall (λ w, auto (w_data w) → w_id w < n) ws →
    Forall (λ w, auto (w_data w) → w_id w < n) (waiters s) →
    Forall (λ l, auto (l_data l) → l_id l < n) (listeners s) →
    Forall (λ w, auto (w_data w) → w_id w < n) (waiters (foldl f s ws))
    ∧ Forall (λ l, auto (l_data l) → l_id l < n) (listeners (foldl f s ws)).
Proof.
  intros Hf ws. induction ws as [|w ws IH]; intros s Hws Hw Hl; [done|].
  apply Forall_cons in Hws as [Hw0 Hws]. simpl.
  destruct (Hf w s Hw0 Hw Hl) as [Hw' Hl']. by apply IH.
Qed.

Lemma tick_counted s : counted s → counted (tick s).
Proof.
  intros [Hw Hl]. unfold counted. rewrite tick_this_id. unfold tick.
  apply foldl_counted; try done.
  intros. by apply waitForSlot_counted.
Qed.

Lemma ws_open_this_id g s : this_id (ws_open g s) = this_id s.
Proof.
  unfold ws_open. case_bool_decide; [|done].
  rewrite foldl_frame; [done|]. intros a w.
  destruct (_ && _); [apply transmit_this_id|done].
Qed.

Lemma ws_open_counted g s : counted s → counted (ws_open g s).
Proof.
  intros [Hw Hl]. unfold counted. rewrite ws_open_this_id. unfold ws_open.
  case_bool_decide; [|done].
  apply foldl_counted; try done.
  intros w s' Hw0 Hws Hls. destruct (_ && _).
  - rewrite transmit_waiters. split; [done|by apply transmit_counted].
  - split; [by apply keep_counted|done].
Qed.

Lemma emit_counted m s : counted s → counted (emit m s).
Proof.
  intros [Hw Hl]. unfold counted.
  rewrite emit_this_id, emit_unfold, emit_on_waiters, emit_on_listeners.
  split; [done|]. rewrite Forall_forall in *. intros l Hin.
  apply list_elem_of_filter in Hin as [_ Hin]. auto.
Qed.

Lemma nextId_auto d s :
  auto d →
  (nextId d s).1 = this_id s ∧ this_id (nextId d s).2 = this_id s + 1.
Proof.
  unfold auto, nextId. destruct (d_id d) as [v|]; [|done].
  by intros ->.
Qed.

Lemma nextId_this_id d s :
  this_id s ≤ this_id (nextId d s).2
  ∧ (auto d → (nextId d s).1 < this_id (nextId d s).2).
Proof.
  split.
  - unfold nextId. repeat case_match; simpl; lia.
  - intros Ha. destruct (nextId_auto d s Ha) as [-> ->]. lia.
Qed.

Lemma send_via_counted start api d cb s :
  (∀ s, counted s → counted (start s).2 ∧ this_id s ≤ this_id (start s).2) →
  counted s →
  counted (send_via start api d cb s)
  ∧ this_id s ≤ this_id (send_via start api d cb s).
Proof.
  intros Hstart Hc. unfold send_via.
  pose proof (nextId_core d s) as (Hl & Hw & _ & _).
  pose proof (nextId_this_id d s) as [Hle Hlt].
  destruct (nextId d s) as [i s1]. simpl in *.
  assert (counted s1) as Hc1 by (by apply (counted_mono s)).
  destruct (Hstart s1 Hc1) as [Hc2 Hle2].
  destruct (start s1) as [g s2]. simpl in *. split; [|lia].
  destruct Hc2 as [Hw2 Hl2]. unfold counted, keep. st_simpl.
  split; [|done]. apply Forall_app. split; [done|].
  apply Forall_singleton. simpl. intros Ha. specialize (Hlt Ha). lia.
Qed.

Lemma getApiIds_counted g s :
  counted s → counted (getApiIds g s) ∧ this_id s ≤ this_id (getApiIds g s).
Proof.
  unfold getApiIds. generalize (keys (apiIds s)). intros names.
  revert s. induction names as [|name names IH]; intros s H; [done|].
  simpl.
  destruct (send_via_counted (λ s, (g, s)) "login_api"
              (Data None "get_api_by_name" (JArr [JStr name]) JUndef)
              (CbApiId name) s) as [Hc Hle]; [done..|].
  destruct (IH _ Hc) as [Hc' Hle'].
  split; [exact Hc'|exact (Z.le_trans _ _ _ Hle Hle')].
Qed.

Lemma start_counted s :
  counted s → counted (start s).2 ∧ this_id s ≤ this_id (start s).2.
Proof.
  intros H. unfold start. destruct (startP s); [done|].
  cbn [snd].
  match goal with |- context [getApiIds ?g ?s0] =>
    destruct (getApiIds_counted g s0) as [Hc Hle];
      [by apply (counted_mono s)|] end.
  split; [exact Hc|exact Hle].
Qed.

Lemma stop_this_id s : this_id (stop s) = this_id s.
Proof.
  unfold stop. st_simpl. rewrite foldl_frame; [by destruct (ws s)|].
  intros. frame.
Qed.

Lemma step_counted s e :
  counted s → counted (step s e) ∧ this_id s ≤ this_id (step s e).
Proof.
  intros H. destruct e; cbn [step].
  - apply send_via_counted; [apply start_counted|done].
  - destruct (stop_keeps s) as (_ & Hl & Hw & _).
    split; [|by rewrite stop_this_id].
    apply (counted_mono s); [done..|by rewrite stop_this_id|done].
  - unfold setWebSocket.
    match goal with |- context [stop ?s0] =>
      destruct (stop_keeps s0) as (_ & Hl & Hw & _);
      pose proof (stop_this_id s0) as Hi end.
    split; [|by rewrite Hi].
    apply (counted_mono s); [done..|by rewrite Hi|done].
  - split; [by apply tick_counted|by rewrite tick_this_id].
  - split; [by apply ws_open_counted|by rewrite ws_open_this_id].
  - unfold ws_close. case_bool_decide; [|done]. split; [|done].
    by apply (counted_mono s).
  - unfold ws_message. case_bool_decide; [|done].
    split; [|by rewrite emit_this_id].
    apply emit_counted. by apply (counted_mono s).
  - split; [by apply emit_counted|by rewrite emit_this_id].
Qed.

Lemma run_counted es s :
  counted s → counted (run es s) ∧ this_id s ≤ this_id (run es s).
Proof.
  revert s. induction es as [|e es IH]; intros s H; [done|].
  simpl. destruct (step_counted s e H) as [Hc Hle].
  destruct (IH _ Hc) as [Hc' Hle']. split; [done|lia].
Qed.

(** An identity taken from the counter is new among the pending calls
    that took theirs from it. In every state a client reaches, each
    waiting or listening call without an identity of its own has one
    below the counter; the next such call gets the counter's value and
    moves it up by one; and the counter never goes down. *)
Theorem auto_identities_fresh (opts : jsobj) (es es' : list event) :
  let s := run es (constructor opts).2 in
  counted s
  ∧ (∀ d, auto d →
       (nextId d s).1 = this_id s ∧ this_id (nextId d s).2 = this_id s + 1)
  ∧ this_id s ≤ this_id (run es' s).
Proof.
  intros s.
  assert (counted (constructor opts).2) as H0 by (split; constructor).
  destruct (run_counted es _ H0) as [Hc _].
  split; [done|]. split; [intros; by apply nextId_auto|].
  by apply run_counted.
Qed.


(** ** Starvation *)

Lemma slotted_zero ws : slotted ws = 0%nat ↔ Forall (λ w, w_slot w = false) ws.
Proof.
  induction ws as [|w ws IH]; [by split|].
  rewrite slotted_cons, Forall_cons. destruct (w_slot w); split.
  - intros H. lia.
  - intros [H _]. done.
  - intros H. split; [done|]. apply IH. lia.
  - intros [_ H]. apply IH in H. lia.
Qed.

Lemma slotted_fmap ws ws' :
  w_slot <$> ws' = w_slot <$> ws → slotted ws' = slotted ws.
Proof.
  revert ws'. induction ws as [|w ws IH]; intros [|w' ws'] H; try done.
  rewrite !fmap_cons in H. injection H as Hs Hr.
  rewrite !slotted_cons, Hs. f_equal. auto.
Qed.

(** A fold whose steps only keep waiting calls puts them back, with
    their slot flags, and changes nothing else. *)
Lemma foldl_keep (Q : steem → waiter → Prop) (f : steem → waiter → steem) ws s :
  (∀ s w w', Q s w → Q (keep w' s) w) →
  (∀ s w, Q s w → ∃ w', f s w = keep w' s ∧ w_slot w' = w_slot w) →
  Forall (Q s) ws →
  ∃ ws', foldl f s ws = set_waiters (waiters s ++ ws') s
         ∧ w_slot <$> ws' = w_slot <$> ws.
Proof.
  intros HQ Hf. revert s. induction ws as [|w ws IH]; intros s Hall; simpl.
  - exists []. split; [|done]. rewrite app_nil_r. by destruct s.
  - apply Forall_cons in Hall as [Hw Hall].
    destruct (Hf s w Hw) as (w' & -> & Hs).
    destruct (IH (keep w' s)) as (ws' & -> & Hss).
    { eapply Forall_impl; [exact Hall|]. intros. by apply HQ. }
    exists (w' :: ws'). split; [|rewrite !fmap_cons; by f_equal].
    unfold keep. st_simpl. by rewrite <- app_assoc.
Qed.

Lemma ws_open_unslotted_step g w s :
  w_slot w = false →
  (if bool_decide (w_startP w = g) && w_slot w then transmit w s else keep w s)
  = keep w s.
Proof. intros ->. by rewrite andb_false_r. Qed.

Lemma tick_starved s :
  starved s →
  starved (tick s) ∧ writes (tick s) = writes s ∧ calls (tick s) = calls s.
Proof.
  intros (Hl & Hs & Hc). unfold tick. cbv zeta.
  match goal with |- context [foldl ?f ?s0 ?ws] =>
    destruct (foldl_keep (λ s _, capacity ≤ inFlight s) f ws s0)
      as (ws' & -> & Hss) end.
  - done.
  - intros s' w. apply waitForSlot_full.
  - by apply Forall_forall.
  - unfold starved. st_simpl. by rewrite (slotted_fmap _ _ Hss).
Qed.

Lemma ws_open_starved g s :
  starved s →
  starved (ws_open g s) ∧ writes (ws_open g s) = writes s
  ∧ calls (ws_open g s) = calls s.
Proof.
  intros (Hl & Hs & Hc). unfold ws_open. case_bool_decide; [|done].
  match goal with |- context [foldl ?f ?s0 ?ws] =>
    destruct (foldl_keep (λ _ w, w_slot w = false) f ws s0)
      as (ws' & -> & Hss) end.
  - done.
  - intros s' w Hw. exists w. split; [|done].
    by apply ws_open_unslotted_step.
  - by apply slotted_zero.
  - unfold starved. st_simpl. by rewrite (slotted_fmap _ _ Hss).
Qed.

Lemma emit_no_listeners m s : listeners s = [] → emit m s = s.
Proof. unfold emit. by intros ->. Qed.

Lemma send_via_starved start api d cb s :
  (∀ s, starved s →
        starved (start s).2 ∧ writes (start s).2 = writes s
        ∧ calls (start s).2 = calls s) →
  starved s →
  starved (send_via start api d cb s)
  ∧ writes (send_via start api d cb s) = writes s
  ∧ calls (send_via start api d cb s) = calls s.
Proof.
  intros Hstart (Hl & Hs & Hc). unfold send_via.
  assert (starved (nextId d s).2 ∧ writes (nextId d s).2 = writes s
          ∧ calls (nextId d s).2 = calls s) as (H1 & Hw1 & Hc1).
  { unfold starved, nextId. by repeat case_match. }
  destruct (nextId d s) as [i s1]. simpl in *.
  destruct (Hstart s1 H1) as ((Hl2 & Hs2 & Hc2) & Hw2 & Hcl2).
  destruct (start s1) as [g s2]. simpl in *.
  unfold starved, keep. st_simpl.
  rewrite slotted_app, Hs2. unfold slotted. simpl.
  repeat split; [done|lia|congruence..].
Qed.

Lemma getApiIds_starved g s :
  starved s →
  starved (getApiIds g s) ∧ writes (getApiIds g s) = writes s
  ∧ calls (getApiIds g s) = calls s.
Proof.
  unfold getApiIds. generalize (keys (apiIds s)). intros names.
  revert s. induction names as [|name names IH]; intros s H; [done|].
  simpl.
  destruct (send_via_starved (λ s, (g, s)) "login_api"
              (Data None "get_api_by_name" (JArr [JStr name]) JUndef)
              (CbApiId name) s) as (H1 & Hw1 & Hc1); [done..|].
  destruct (IH _ H1) as (H2 & Hw2 & Hc2).
  split; [exact H2|]. split; [exact (eq_trans Hw2 Hw1)|exact (eq_trans Hc2 Hc1)].
Qed.

Lemma start_starved s :
  starved s →
  starved (start s).2 ∧ writes (start s).2 = writes s
  ∧ calls (start s).2 = calls s.
Proof.
  intros H. unfold start. destruct (startP s); [done|]. cbn [snd].
  match goal with |- context [getApiIds ?g ?s0] =>
    destruct (getApiIds_starved g s0) as (H1 & Hw & Hc); [exact H|] end.
  split; [exact H1|]. split; [exact Hw|exact Hc].
Qed.

Lemma stop_writes s : writes (stop s) = writes s.
Proof.
  unfold stop. st_simpl. rewrite foldl_frame; [by destruct (ws s)|].
  intros. frame.
Qed.

Lemma starved_ext s s' :
  listeners s' = listeners s → waiters s' = waiters s →
  inFlight s' = inFlight s → starved s → starved s'.
Proof. unfold starved. by intros -> -> ->. Qed.

Lemma step_starved s e :
  starved s →
  starved (step s e) ∧ writes (step s e) = writes s
  ∧ calls (step s e) = calls s.
Proof.
  intros H. destruct e; cbn [step].
  - apply send_via_starved; [apply start_starved|done].
  - destruct (stop_keeps s) as (Hc & Hl & Hw & Hi).
    split; [by apply (starved_ext s)|]. split; [apply stop_writes|done].
  - unfold setWebSocket.
    match goal with |- context [stop ?s0] =>
      destruct (stop_keeps s0) as (Hc & Hl & Hw & Hi);
      pose proof (stop_writes s0) as Hwr end.
    split; [by apply (starved_ext s)|]. split; [exact Hwr|exact Hc].
  - by apply tick_starved.
  - by apply ws_open_starved.
  - unfold ws_close. case_bool_decide; [|done]. split; [|done].
    by apply (starved_ext s).
  - unfold ws_message. case_bool_decide; [|done].
    rewrite emit_no_listeners by (destruct H as [Hl _]; exact Hl).
    split; [|done]. by apply (starved_ext s).
  - rewrite emit_no_listeners by (destruct H as [Hl _]; exact Hl). done.
Qed.

(** Once [capacity] calls are in flight while none has a listener or a
    slot, the client is stuck for good: whatever is called, emitted or
    delivered and however long one waits, nothing is written any more
    and no callback runs. The budget is only given back by listeners,
    and listeners are only registered under a free budget. *)
Theorem starved_forever (s : steem) (es : list event) :
  starved s →
  starved (run es s) ∧ writes (run es s) = writes s
  ∧ calls (run es s) = calls s.
Proof.
  revert s. induction es as [|e es IH]; intros s H; [done|].
  simpl. destruct (step_starved s e H) as (H1 & Hw1 & Hc1).
  destruct (IH _ H1) as (H2 & Hw2 & Hc2).
  split; [exact H2|]. split; congruence.
Qed.

(** Ten requests sent together on a fresh client starve it: neither
    time nor a message nor a restart gets one written. *)
Lemma starved_forever_witness :
  let s := run saturated steem0 in
  let es := wait 200
            ++ [EEmit (result 20 JNull); EStop;
                ESend "database_api"%string (request "get_block") 10]
            ++ wait 200 in
  starved s
  ∧ starved (run es s) ∧ writes (run es s) = writes s
  ∧ calls (run es s) = calls s.
Proof.
  intros s es.
  assert (starved s) as H.
  { vm_compute. split; [reflexivity|]. split; [reflexivity|discriminate]. }
  exact (conj H (starved_forever s es H)).
Defined.

(** ** The socket listeners *)

Lemma release_ws_gone r s : r ∉ wsListeners (release_ws r s).
Proof.
  unfold release_ws. st_simpl. intros H.
  apply list_elem_of_filter in H as [H _]. done.
Qed.

(** The ['message'] listener of a socket forwards one message: it
    releases itself before it emits, so a second message of the same
    socket does not reach the client. *)
Theorem ws_message_once (g : nat) (m m' : message) (s : steem) :
  ws_message g m' (ws_message g m s) = ws_message g m s.
Proof.
  destruct (decide ((g, WsMessage) ∈ wsListeners s)) as [Hin|Hin].
  - assert (ws_message g m s = emit m (release_ws (g, WsMessage) s)) as ->.
    { unfold ws_message. by rewrite bool_decide_eq_true_2. }
    unfold ws_message. rewrite bool_decide_eq_false_2; [done|].
    rewrite emit_wsListeners. apply release_ws_gone.
  - assert (ws_message g m s = s) as ->.
    { unfold ws_message. by rewrite bool_decide_eq_false_2. }
    unfold ws_message. by rewrite bool_decide_eq_false_2.
Qed.



Lemma release_ws_fold_releases rs s :
  releases (foldl (λ s r, release_ws r s) s rs) = releases s.
Proof. apply foldl_frame. intros. frame. Qed.










Lemma stop_fields s :
  ws (stop s) = None ∧ startP (stop s) = None ∧ releases (stop s) = [].
Proof.
  unfold stop. st_simpl. split; [|split; [|done]].
  - rewrite foldl_frame; [done|]. intros. frame.
  - rewrite foldl_frame; [done|]. intros. frame.
Qed.



(** ** What a call of [send] costs *)





(** ** What a slot check and the opening of the socket write *)








(** ** The effective capacity *)

(** [inFlight] counts a call from the moment [send] returns, itself
    included when its slot is checked. So a client never has more than
    nine requests past their slot check, written or about to be, and
    [inFlight] is never below the number of calls that wait or
    listen. *)
Theorem nine_in_flight (opts : jsobj) (es : list event) :
  let s := run es (constructor opts).2 in
  (length (listeners s) + slotted (waiters s) ≤ 9)%nat
  ∧ Z.of_nat (length (listeners s) + length (waiters s)) ≤ inFlight s.
Proof.
  intros s.
  destruct (run_Inv es _ (constructor_Inv opts)) as (_ & Hb & Hc).
  fold s in Hb, Hc. unfold capacity, slotted in *. simpl in *. lia.
Qed.

(** ** More on the polling streams *)

Module StreamMore.
Import Stream.

#[local] Hint Unfold set_current set_running set_phase set_blk_current
  set_blk_last set_fetching set_queries set_out : st.

Lemma poll_fetcher blockId st :
  layer_of st ≠ BlockNumberL → phase_of st = Querying → running st = true →
  blk_last st = current st →
  let st' := poll blockId st in
  layer_of st' = layer_of st ∧ phase_of st' = Querying ∧ running st' = true
  ∧ blk_last st' = current st'
  ∧ current st'
    = (if strict_eq blockId (current st) then current st else blockId)
  ∧ fetching st'
    = fetching st ++ (if strict_eq blockId (current st) then [] else [blockId])
  ∧ out st' = out st.
Proof.
  intros Hl Hp Hr Hb. unfold poll, on_head, on_elapsed. rewrite Hp.
  destruct (strict_eq blockId (current st)) eqn:He; simpl.
  - unfold update. simpl. rewrite Hr. simpl. by rewrite app_nil_r.
  - unfold number_cb, blocknumber_cb. simpl.
    destruct (layer_of st) eqn:Hl'; [done|..];
      simpl; rewrite Hb, He; simpl; unfold update; simpl; rewrite Hr; done.
Qed.

Lemma changes_no_repeat prev blockIds i a b :
  changes prev blockIds !! i = Some a →
  changes prev blockIds !! S i = Some b →
  strict_eq b a = false.
Proof.
  revert prev i. induction blockIds as [|x xs IH]; intros prev i Ha Hb.
  { done. }
  simpl in Ha, Hb. destruct (strict_eq x prev) eqn:He; [by eapply IH|].
  destruct i as [|i]; [|by eapply IH].
  simpl in Ha. injection Ha as <-. simpl in Hb.
  clear He IH. revert Hb. induction xs as [|y ys IHy]; [done|].
  simpl. destruct (strict_eq y x) eqn:Hy; [done|].
  simpl. by intros [= <-].
Qed.

(** A block, transaction or operation stream fetches a block for the
    head identities that differ from the one before them: each once, in
    order, and never the same identity (as [===] has it) twice in
    succession. Nothing reaches the subscriber before a fetch is
    answered. *)
Theorem fetcher_fetches (st : stream) (blockIds : list jsval) :
  layer_of st ≠ BlockNumberL → phase_of st = Querying → running st = true →
  blk_last st = current st →
  fetching (polls blockIds st)
  = fetching st ++ changes (current st) blockIds
  ∧ out (polls blockIds st) = out st
  ∧ (∀ i a b, changes (current st) blockIds !! i = Some a →
              changes (current st) blockIds !! S i = Some b →
              strict_eq b a = false).
Proof.
  intros Hl Hp Hr Hb. split; [|split].
  - revert st Hl Hp Hr Hb.
    induction blockIds as [|x xs IH]; intros st Hl Hp Hr Hb; simpl.
    { by rewrite app_nil_r. }
    destruct (poll_fetcher x st Hl Hp Hr Hb)
      as (Hl' & Hp' & Hr' & Hb' & Hc & Hf & _).
    rewrite IH, Hc, Hf; [|congruence|done..].
    destruct (strict_eq x (current st)); simpl.
    + by rewrite app_nil_r.
    + by rewrite <- app_assoc.
  - revert st Hl Hp Hr Hb.
    induction blockIds as [|x xs IH]; intros st Hl Hp Hr Hb; [done|].
    simpl.
    destruct (poll_fetcher x st Hl Hp Hr Hb)
      as (Hl' & Hp' & Hr' & Hb' & _ & _ & Ho).
    rewrite IH, Ho; [done|congruence|done..].
  - intros i a b. apply changes_no_repeat.
Qed.

Lemma fetcher_fetches_witness :
  layer_of streamBlock ≠ BlockNumberL
  ∧ phase_of streamBlock = Querying ∧ running streamBlock = true
  ∧ blk_last streamBlock = current streamBlock
  ∧ fetching (polls (JNum <$> [100; 100; 101; 101; 102]) streamBlock)
    = [JNum 100; JNum 101; JNum 102].
Proof.
  assert (layer_of streamBlock ≠ BlockNumberL) as Hl by discriminate.
  assert (phase_of streamBlock = Querying) as Hp by reflexivity.
  assert (running streamBlock = true) as Hr by reflexivity.
  assert (blk_last streamBlock = current streamBlock) as Hb by reflexivity.
  do 4 (split; [assumption|]).
  destruct (fetcher_fetches streamBlock (JNum <$> [100; 100; 101; 101; 102])
              Hl Hp Hr Hb) as (Hf & _).
  rewrite Hf. reflexivity.
Defined.

Lemma callbacks_out {A} (mk : A → item) xs st :
  let st' := foldl (λ st x, callback (mk x) st) st xs in
  out st' = out st ++ (mk <$> xs)
  ∧ running st' = running st ∧ layer_of st' = layer_of st
  ∧ fetching st' = fetching st ∧ phase_of st' = phase_of st.
Proof.
  revert st. induction xs as [|x xs IH]; intros st; simpl.
  { by rewrite app_nil_r. }
  destruct (IH (callback (mk x) st)) as (-> & -> & -> & -> & ->).
  simpl. by rewrite <- app_assoc.
Qed.

Lemma transactions_out ts st :
  layer_of st = OperationsL →
  let st' := foldl (λ st t, transaction_cb (inr t) st) st ts in
  out st' = out st ++ (Op <$> (t ← ts; operations t))
  ∧ running st' = running st ∧ layer_of st' = layer_of st
  ∧ fetching st' = fetching st ∧ phase_of st' = phase_of st.
Proof.
  revert st. induction ts as [|t ts IH]; intros st Hl.
  { simpl. by rewrite app_nil_r. }
  cbn [foldl]. cbv zeta in IH |- *.
  assert (transaction_cb (inr t) st
          = foldl (λ st o, callback (Op o) st) st (operations t)) as ->.
  { unfold transaction_cb. by rewrite Hl. }
  destruct (callbacks_out Op (operations t) st) as (Ho & Hr & Hl' & Hf & Hp).
  cbv zeta in Ho, Hr, Hl', Hf, Hp.
  destruct (IH (foldl (λ st o, callback (Op o) st) st (operations t)))
    as (H1 & H2 & H3 & H4 & H5); [congruence|].
  rewrite H1, H2, H3, H4, H5, Ho, Hr, Hl', Hf, Hp.
  rewrite bind_cons, fmap_app, app_assoc. done.
Qed.

Lemma transactions_plain ts st :
  layer_of st = TransactionsL →
  foldl (λ st t, transaction_cb (inr t) st) st ts
  = foldl (λ st t, callback (Tx t) st) st ts.
Proof.
  revert st. induction ts as [|t ts IH]; intros st Hl; [done|].
  cbn [foldl].
  assert (transaction_cb (inr t) st = callback (Tx t) st) as ->.
  { unfold transaction_cb. by rewrite Hl. }
  by apply IH.
Qed.

(** The answer to a block fetch reaches the subscriber split as its
    layer asks: a block stream gets the block, a transaction stream its
    transactions one by one in the block's order, an operation stream
    the operations of every transaction, transaction by transaction and
    in each in its order. The watcher is left as it is. *)
Theorem block_delivery (st : stream) (b : block) (id : jsval) (rest : list jsval) :
  fetching st = id :: rest →
  let st' := on_block (inr b) st in
  out st'
  = out st
    ++ match layer_of st with
       | BlockNumberL => []
       | BlockL => [Blk b]
       | TransactionsL => Tx <$> transactions b
       | OperationsL => Op <$> (t ← transactions b; operations t)
       end
  ∧ fetching st' = rest ∧ running st' = running st
  ∧ phase_of st' = phase_of st.
Proof.
  intros Hf. unfold on_block. rewrite Hf. unfold block_cb.
  destruct (layer_of st) eqn:Hl; simpl; rewrite ?Hl; simpl.
  - by rewrite app_nil_r.
  - done.
  - destruct (callbacks_out Tx (transactions b) (set_fetching rest st))
      as (Ho & Hr & _ & Hfe & Hp).
    rewrite transactions_plain by done.
    cbv zeta in *. by rewrite Ho, Hr, Hfe, Hp.
  - destruct (transactions_out (transactions b) (set_fetching rest st))
      as (Ho & Hr & _ & Hfe & Hp); [done|].
    cbv zeta in *. by rewrite Ho, Hr, Hfe, Hp.
Qed.

(** A block with three transactions of two operations each gives six
    operation events, in order. *)
Lemma block_delivery_witness :
  let b := Block [Transaction [JNum 1; JNum 2]; Transaction [JNum 3; JNum 4];
                  Transaction [JNum 5; JNum 6]] in
  let st := poll (JNum 100) streamOperations in
  fetching st = [JNum 100]
  ∧ out (on_block (inr b) st)
    = Op <$> (JNum <$> [1; 2; 3; 4; 5; 6]).
Proof.
  intros b st.
  assert (fetching st = [JNum 100]) as Hf by reflexivity.
  split; [exact Hf|].
  destruct (block_delivery st b (JNum 100) [] Hf) as (Ho & _).
  rewrite Ho. reflexivity.
Defined.

(** A failed block fetch reaches the subscriber as one error. It turns
    the watcher of a transaction or operation stream off; the watcher of
    a block stream stays on, because [streamBlock] hands the
    subscriber's own callback to [getBlock]. *)
Theorem block_error (st : stream) (err id : jsval) (rest : list jsval) :
  fetching st = id :: rest → layer_of st ≠ BlockNumberL →
  let st' := on_block (inl err) st in
  out st' = out st ++ [Err err]
  ∧ running st'
    = match layer_of st with BlockL => running st | _ => false end
  ∧ phase_of st' = phase_of st ∧ fetching st' = rest.
Proof.
  intros Hf Hl. unfold on_block. rewrite Hf. unfold block_cb.
  destruct (layer_of st) eqn:Hl'; [done|..]; simpl; rewrite ?Hl'; simpl.
  - done.
  - unfold transaction_cb. simpl. rewrite Hl'. done.
  - unfold transaction_cb. simpl. rewrite Hl'. done.
Qed.

Lemma block_error_witness :
  let sb := poll (JNum 100) streamBlock in
  let so := poll (JNum 100) streamOperations in
  fetching sb = [JNum 100] ∧ layer_of sb ≠ BlockNumberL
  ∧ fetching so = [JNum 100] ∧ layer_of so ≠ BlockNumberL
  ∧ running (on_block (inl (JStr "no block")) sb) = true
  ∧ running (on_block (inl (JStr "no block")) so) = false
  ∧ out (on_block (inl (JStr "no block")) so) = [Err (JStr "no block")].
Proof.
  intros sb so.
  assert (fetching sb = [JNum 100]) as Hfb by reflexivity.
  assert (layer_of sb ≠ BlockNumberL) as Hlb by discriminate.
  assert (fetching so = [JNum 100]) as Hfo by reflexivity.
  assert (layer_of so ≠ BlockNumberL) as Hlo by discriminate.
  do 4 (split; [assumption|]).
  destruct (block_error sb (JStr "no block") (JNum 100) [] Hfb Hlb)
    as (_ & Hrb & _).
  destruct (block_error so (JStr "no block") (JNum 100) [] Hfo Hlo)
    as (Hoo & Hro & _).
  split; [rewrite Hrb; reflexivity|].
  split; [rewrite Hro; reflexivity|rewrite Hoo; reflexivity].
Defined.

Lemma idle_step (f : stream → stream) st :
  f = cancel ∨ (∃ b, f = on_head b) ∨ (∃ e, f = on_head_error e)
  ∨ f = on_elapsed ∨ (∃ ev, f = on_block ev) →
  phase_of st = Idle →
  phase_of (f st) = Idle ∧ queries (f st) = queries st.
Proof.
  intros Hf Hp. destruct Hf as [->|[[b ->]|[[e ->]|[->|[ev ->]]]]].
  - done.
  - unfold on_head. by rewrite Hp.
  - unfold on_head_error. by rewrite Hp.
  - unfold on_elapsed. by rewrite Hp.
  - unfold on_block. destruct (fetching st) as [|x rest]; [done|].
    destruct (StreamFacts.block_cb_settles ev (set_fetching rest st))
      as (_ & Hp' & Hq' & _).
    simpl in *. by rewrite Hp', Hq'.
Qed.

Lemma feeds_idle es σ h st :
  wf_store σ → streams σ !! h = Some st → phase_of st = Idle →
  ∃ st', streams (feeds es σ) !! h = Some st'
         ∧ phase_of st' = Idle ∧ queries st' = queries st.
Proof.
  revert σ st. induction es as [|e es IH]; intros σ st Hwf Hh Hp; simpl.
  { by exists st. }
  assert (∃ st1, streams (feed σ e) !! h = Some st1
                 ∧ phase_of st1 = Idle ∧ queries st1 = queries st)
    as (st1 & Hh1 & Hp1 & Hq1).
  { destruct e as [l i|k|k b|k err|k|k ev]; simpl.
    - exists st. split; [|done]. rewrite lookup_insert_ne; [done|].
      assert (h < next σ)%nat by (apply Hwf; by rewrite Hh). lia.
    - destruct (decide (k = h)) as [->|Hne];
        [|rewrite lookup_alter_ne by done; eauto].
      rewrite lookup_alter_eq, Hh. eexists. split; [done|].
      apply idle_step; auto.
    - destruct (decide (k = h)) as [->|Hne];
        [|rewrite lookup_alter_ne by done; eauto].
      rewrite lookup_alter_eq, Hh. eexists. split; [done|].
      apply idle_step; eauto.
    - destruct (decide (k = h)) as [->|Hne];
        [|rewrite lookup_alter_ne by done; eauto].
      rewrite lookup_alter_eq, Hh. eexists. split; [done|].
      apply idle_step; eauto.
    - destruct (decide (k = h)) as [->|Hne];
        [|rewrite lookup_alter_ne by done; eauto].
      rewrite lookup_alter_eq, Hh. eexists. split; [done|].
      apply idle_step; auto.
    - destruct (decide (k = h)) as [->|Hne];
        [|rewrite lookup_alter_ne by done; eauto].
      rewrite lookup_alter_eq, Hh. eexists. split; [done|].
      apply idle_step; eauto 6. }
  destruct (IH (feed σ e) st1) as (st' & Hh' & Hp' & Hq');
    [by apply StreamFacts.wf_store_step|done..|].
  exists st'. split; [done|]. split; [done|congruence].
Qed.

Lemma head_error_out err st :
  phase_of st = Querying →
  out (on_head_error err st) = out st ++ [Err err]
  ∧ phase_of (on_head_error err st) = Idle
  ∧ queries (on_head_error err st) = queries st.
Proof.
  intros Hp. unfold on_head_error. rewrite Hp.
  destruct (StreamFacts.number_cb_settles (inl err) (set_phase Idle st))
    as (_ & Hp' & Hq' & _).
  simpl in *. rewrite Hp', Hq'. split; [|done].
  unfold number_cb, blocknumber_cb, block_cb, transactions_cb, transaction_cb,
    operations_cb.
  simpl. destruct (layer_of st) eqn:Hl; simpl; rewrite ?Hl; done.
Qed.

(** A failed chain head query ends a stream of any layer: the
    subscriber gets the error once, and the stream makes no further
    query, whatever arrives or elapses afterwards. *)
Theorem head_error_stops (es0 es : list input) (h : nat) (err : jsval)
    (st : stream) :
  let σ := feeds es0 empty in
  let σ1 := feed σ (HeadError h err) in
  streams σ !! h = Some st → phase_of st = Querying →
  ∃ st1 st',
    streams σ1 !! h = Some st1 ∧ out st1 = out st ++ [Err err]
    ∧ streams (feeds es σ1) !! h = Some st'
    ∧ queries st' = queries st ∧ phase_of st' = Idle.
Proof.
  intros σ σ1 Hst Hp.
  destruct (head_error_out err st Hp) as (Ho & Hp1 & Hq1).
  assert (streams σ1 !! h = Some (on_head_error err st)) as H1.
  { subst σ1. simpl. by rewrite lookup_alter_eq, Hst. }
  destruct (feeds_idle es σ1 h (on_head_error err st))
    as (st' & Hst' & Hp' & Hq').
  - apply StreamFacts.wf_store_step, StreamFacts.wf_store_run,
      StreamFacts.wf_store_empty.
  - done.
  - done.
  - exists (on_head_error err st), st'.
    repeat (split; [done|]). split; [congruence|done].
Qed.

(** An operation stream whose first query fails: one error, and no
    second query. *)
Lemma head_error_stops_witness :
  let es0 := [Open OperationsL 200] in
  let es := [Elapsed 0; Head 0 (JNum 100); Elapsed 0] in
  let σ := feeds es0 empty in
  let σ1 := feed σ (HeadError 0 (JStr "down")) in
  streams σ !! 0%nat = Some streamOperations
  ∧ phase_of streamOperations = Querying
  ∧ ∃ st', streams (feeds es σ1) !! 0%nat = Some st'
           ∧ queries st' = 1%nat ∧ phase_of st' = Idle.
Proof.
  intros es0 es σ σ1.
  assert (streams σ !! 0%nat = Some streamOperations) as Hst by reflexivity.
  assert (phase_of streamOperations = Querying) as Hp by reflexivity.
  split; [exact Hst|]. split; [exact Hp|].
  destruct (head_error_stops es0 es 0 (JStr "down") streamOperations Hst Hp)
    as (st1 & st' & _ & _ & Hst' & Hq & Hp').
  exists st'. split; [exact Hst'|]. split; [exact Hq|exact Hp'].
Defined.

End StreamMore.

(** ** Reconnecting *)

Lemma send_started_ws g api d cb s :
  ws (send_via (λ s, (g, s)) api d cb s) = ws s
  ∧ nsockets (send_via (λ s, (g, s)) api d cb s) = nsockets s
  ∧ options (send_via (λ s, (g, s)) api d cb s) = options s.
Proof.
  unfold send_via, nextId, keep.
  repeat case_match; simplify_eq; st_simpl; done.
Qed.

Lemma getApiIds_ws g s :
  ws (getApiIds g s) = ws s ∧ nsockets (getApiIds g s) = nsockets s
  ∧ options (getApiIds g s) = options s.
Proof.
  unfold getApiIds. generalize (keys (apiIds s)). intros names.
  revert s. induction names as [|name names IH]; intros s; [done|].
  cbn [foldl getApiByName].
  destruct (IH (send_via (λ s, (g, s)) "login_api"
                  (Data None "get_api_by_name" (JArr [JStr name]) JUndef)
                  (CbApiId name) s)) as (H1 & H2 & H3).
  destruct (send_started_ws g "login_api"
              (Data None "get_api_by_name" (JArr [JStr name]) JUndef)
              (CbApiId name) s) as (H4 & H5 & H6).
  split; [exact (eq_trans H1 H4)|].
  split; [exact (eq_trans H2 H5)|exact (eq_trans H3 H6)].
Qed.

Lemma stop_options s :
  options (stop s) = options s ∧ nsockets (stop s) = nsockets s.
Proof.
  unfold stop. st_simpl. split.
  - rewrite foldl_frame; [by destruct (ws s)|]. intros. frame.
  - rewrite foldl_frame; [by destruct (ws s)|]. intros. frame.
Qed.

(** [setWebSocket] is the way to another server: the stored [url] is the
    argument and the other options are kept; the client has no socket
    and no start promise left, and the next call of [send] opens a
    socket that no earlier one was. *)
Theorem setWebSocket_reconnects (url api : string) (d : data) (cb : nodeback)
    (s : steem) :
  let s1 := setWebSocket url s in
  get "url" (options s1) = JStr url
  ∧ (∀ k, k ≠ "url"%string → get k (options s1) = get k (options s))
  ∧ ws s1 = None ∧ startP s1 = None
  ∧ ws (send api d cb s1) = Some (nsockets s)
  ∧ nsockets (send api d cb s1) = S (nsockets s)
  ∧ get "url" (options (send api d cb s1)) = JStr url.
Proof.
  intros s1. subst s1. unfold setWebSocket.
  set (s0 := set_options (set "url" (JStr url) (options s)) s).
  destruct (stop_options s0) as [Ho Hn].
  destruct (stop_fields s0) as (Hws & Hst & _).
  assert (options s0 = set "url" (JStr url) (options s)) as Ho0 by done.
  assert (nsockets s0 = nsockets s) as Hn0 by done.
  split; [by rewrite Ho, Ho0, get_set_eq|].
  split; [intros k Hk; rewrite Ho, Ho0; apply get_set_ne; congruence|].
  split; [done|]. split; [done|].
  assert (ws (send api d cb (stop s0)) = Some (nsockets s)
          ∧ nsockets (send api d cb (stop s0)) = S (nsockets s)
          ∧ options (send api d cb (stop s0)) = options (stop s0))
    as (H1 & H2 & H3).
  { unfold send, send_via.
    assert (startP (nextId d (stop s0)).2 = None
            ∧ nsockets (nextId d (stop s0)).2 = nsockets s
            ∧ options (nextId d (stop s0)).2 = options (stop s0))
      as (Hs' & Hn' & Ho').
    { unfold nextId. repeat case_match; simpl; by rewrite ?Hst, ?Hn. }
    destruct (nextId d (stop s0)) as [i s2]. cbn [snd] in *.
    unfold start. rewrite Hs'.
    match goal with |- context [getApiIds ?g ?s3] =>
      destruct (getApiIds_ws g s3) as (Hw3 & Hn3 & Ho3);
      set (s4 := getApiIds g s3) in * end.
    clearbody s4. unfold listenTo in Hw3, Hn3, Ho3. cbn in Hw3, Hn3, Ho3.
    unfold keep. cbn. rewrite Hw3, Hn3, Ho3, Hn', Ho'. done. }
  split; [exact H1|]. split; [exact H2|].
  by rewrite H3, Ho, Ho0, get_set_eq.
Qed.

(** ** The api ids from the server *)

(** The matched response to a request of [getApiIds] puts its result in
    the table of api ids under the name asked for, if the result is
    truthy; a null result leaves the default in place. No other entry
    changes. *)
Theorem api_id_stored (l : listener) (m : message) (name : string) (s : steem) :
  l_cb l = CbApiId name → l_id l = m_id m → l_settled l = false →
  truthy (d_error (l_data l)) = false →
  get name (apiIds (on_message l m s))
  = (if truthy (m_result m) then m_result m else get name (apiIds s))
  ∧ (∀ k, k ≠ name → get k (apiIds (on_message l m s)) = get k (apiIds s))
  ∧ keys (apiIds (on_message l m s)) `sublist_of` keys (apiIds s) ++ [name].
Proof.
  intros Hcb Hid Hs He. unfold on_message.
  rewrite bool_decide_eq_false_2 by lia.
  rewrite bool_decide_eq_false_2 by (intros H; by apply H).
  rewrite Hs. cbv zeta. rewrite He, Hcb. unfold invoke. st_simpl.
  destruct (truthy (m_result m)); st_simpl.
  - split; [apply get_set_eq|]. split.
    + intros k Hk. apply get_set_ne. congruence.
    + unfold keys. induction (apiIds s) as [|[k v] o IH]; [done|].
      simpl. destruct (String.eqb name k) eqn:E; simpl.
      * apply String.eqb_eq in E as ->. apply sublist_skip.
        apply sublist_inserts_r. done.
      * by apply sublist_skip.
  - split; [done|]. split; [done|]. by apply sublist_inserts_r.
Qed.

(** The response 7 to the request for [database_api] replaces the
    default 0. *)
Lemma api_id_stored_witness :
  let s := run ([ESend "database_api"%string (request "get_block") 0;
                 EWsOpen 0] ++ wait 100) steem0 in
  let m := result 1 (JNum 7) in
  ∃ l, listeners s !! 0%nat = Some l
       ∧ l_cb l = CbApiId "database_api" ∧ l_id l = m_id m
       ∧ l_settled l = false ∧ truthy (d_error (l_data l)) = false
       ∧ get "database_api" (apiIds s) = JNum 0
       ∧ get "database_api" (apiIds (on_message l m s)) = JNum 7.
Proof.
  intros s m.
  destruct (listeners s !! 0%nat) as [l|] eqn:Hl; [|by vm_compute in Hl].
  exists l. split; [done|].
  assert (l_cb l = CbApiId "database_api" ∧ l_id l = m_id m
          ∧ l_settled l = false ∧ truthy (d_error (l_data l)) = false)
    as (Hcb & Hid & Hs & He).
  { vm_compute in Hl. injection Hl as <-. by vm_compute. }
  do 4 (split; [assumption|]). split; [by vm_compute|].
  destruct (api_id_stored l m "database_api" s Hcb Hid Hs He) as (Hg & _).
  rewrite Hg. reflexivity.
Defined.

(** ** One message per socket *)












